(** * lgtm-gitlab: the webhook that counts LGTM comments and merges

    A shallow embedding of [main.go]: the comment classifier and the
    per-merge-request counter of [checkLgtm], the outbound call built by
    [acceptMergeRequest], and the webhook handler [LGTM]; then the
    handlers as goroutines that interleave on the mutex and the map, the
    start-up in [main], and merge calls that interleave on [glURL].

    Conventions.
    - Go's [int] is taken at 64 bits (amd64/arm64): a [Z] in
      [MinInt .. MaxInt], with [count + 1] wrapping as the hardware does.
    - Go strings are byte strings: [string] of the Standard Library.
    - [lgtmCount], a [map[int]int], is a [gmap Z Z].
    - Every [log.Printf] call site is one constructor of [LogLine]; what a
      function prints, calls and sends is returned as a list of [Event]s.
    - The world outside the program enters as parameters: the token flag,
      the decoder of [encoding/json], what [fmt] makes of a [%], and the
      outcome of the HTTP round trip of each merge call. *)

From Stdlib Require Import ZArith String Ascii List Lia.
From stdpp Require Import base decidable option list gmap strings pretty.
Import ListNotations.

Open Scope Z_scope.

(** ** Machine integers *)

Definition intSize : Z := 64.
Definition MaxInt : Z := 2 ^ (intSize - 1) - 1.
Definition MinInt : Z := - 2 ^ (intSize - 1).

(** Two's-complement reduction of a mathematical integer to an [int]. *)
Definition wrap (z : Z) : Z :=
  (z - MinInt) mod 2 ^ intSize + MinInt.

(** [a + b] on [int]. *)
Definition int_add (a b : Z) : Z := wrap (a + b).

(** ** The package-level constants (main.go, lines 26-39) *)

Definition ValidLGTMCount : Z := 2.

Definition ErrInvalidRequest : string := "invalid request body".
Definition ErrInvalidContentType : string := "invalid content type".
Definition RespOK : string := "OK".

Definition ObjectNote : string := "note".
Definition NoteableTypeMergeRequest : string := "MergeRequest".
Definition NoteLGTM : string := "LGTM".
Definition StatusCanbeMerged : string := "can_be_merged".

Definition StatusOK : Z := 200.
Definition StatusBadRequest : Z := 400.
Definition StatusMethodNotAllowed : Z := 405.
Definition StatusNotAcceptable : Z := 406.

(** ** The event (main.go, [type Comment])

    Only the fields that the program reads are kept; the decoder fills the
    others and nothing looks at them. *)

Record ObjectAttributesT := {
  Note : string;
  NoteableType : string
}.

Record MergeParamsT := {
  ForceRemoveSourceBranch : bool
}.

Record MergeRequestT := {
  ID : Z;
  MergeStatus : string;
  MergeParams : MergeParamsT
}.

Record Comment := {
  ObjectKind : string;
  ProjectID : Z;
  ObjectAttributes : ObjectAttributesT;
  MergeRequest : MergeRequestT
}.

(** ** [strings.ToUpper]

    ASCII letters are mapped byte by byte. Two runes outside ASCII have an
    ASCII upper case: U+0131 (bytes C4 B1) gives [I] and U+017F (bytes C5 BF)
    gives [S]. Every other rune outside ASCII is mapped by the Unicode tables
    to a rune outside ASCII again; its bytes are kept here as they are, which
    is all that a comparison with an ASCII literal can see. *)

Definition upper_byte (c : ascii) : ascii :=
  let n := N_of_ascii c in
  if ((97 <=? n) && (n <=? 122))%N then ascii_of_N (n - 32) else c.

Fixpoint ToUpper (s : string) : string :=
  match s with
  | EmptyString => EmptyString
  | String c r =>
      match r with
      | String d r' =>
          if (Ascii.eqb c "196" && Ascii.eqb d "177")%bool
          then String "I" (ToUpper r')
          else if (Ascii.eqb c "197" && Ascii.eqb d "191")%bool
          then String "S" (ToUpper r')
          else String (upper_byte c) (ToUpper r)
      | EmptyString => String (upper_byte c) EmptyString
      end
  end.

(** ** [net/url]: the configured URL and how it is printed *)

(** [url.URL], the fields that its [String] method reads. [glURL] is what
    [url.Parse] made of the [gitlab_url] flag; the program assigns its
    [Path] and calls [String], nothing else. [Path] and [RawPath] hold what
    Go holds. [User], [Host] and [Fragment] hold the text that [String]
    writes for them: the user information as [Userinfo.String] gives it
    ([None] for a nil pointer), host and fragment with their escapes, each
    empty exactly when the field is. [OmitHost] exists from Go 1.19 on and
    is [false] before. *)
Record URL := {
  Scheme : string;
  Opaque : string;
  User : option string;
  Host : string;
  Path : string;
  RawPath : string;
  OmitHost : bool;
  ForceQuery : bool;
  RawQuery : string;
  Fragment : string
}.

(** [u] after the assignment [u.Path = path] (line 166). *)
Definition withPath (u : URL) (path : string) : URL :=
  {| Scheme := Scheme u; Opaque := Opaque u; User := User u; Host := Host u;
     Path := path; RawPath := RawPath u; OmitHost := OmitHost u;
     ForceQuery := ForceQuery u; RawQuery := RawQuery u;
     Fragment := Fragment u |}.

(** *** Escaping of a path ([shouldEscape], [escape], [unescape] and
    [validEncoded] of [net/url], in the mode [encodePath]) *)

Fixpoint mem_byte (c : ascii) (s : string) : bool :=
  match s with
  | EmptyString => false
  | String d r => Ascii.eqb c d || mem_byte c r
  end.

Definition alnum (c : ascii) : bool :=
  let n := N_of_ascii c in
  (((97 <=? n) && (n <=? 122)) || ((65 <=? n) && (n <=? 90))
   || ((48 <=? n) && (n <=? 57)))%N.

(** Letters, digits and the marks [-_.~] are never escaped; of the reserved
    bytes a path escapes the question mark only; every other byte is
    escaped. *)
Definition shouldEscape (c : ascii) : bool :=
  if alnum c then false
  else if mem_byte c "-_.~" then false
  else if mem_byte c "$&+,/:;=?@" then Ascii.eqb c "?"
  else true.

Definition upperhex (n : N) : ascii :=
  nth (N.to_nat n) (list_ascii_of_string "0123456789ABCDEF") "0"%char.

Fixpoint escape (s : string) : string :=
  match s with
  | EmptyString => EmptyString
  | String c r =>
      if shouldEscape c
      then String "%" (String (upperhex (N_of_ascii c / 16))
                         (String (upperhex (N_of_ascii c mod 16)) (escape r)))
      else String c (escape r)
  end.

Definition unhex (c : ascii) : option N :=
  let n := N_of_ascii c in
  if ((48 <=? n) && (n <=? 57))%N then Some (n - 48)%N
  else if ((97 <=? n) && (n <=? 102))%N then Some (n - 97 + 10)%N
  else if ((65 <=? n) && (n <=? 70))%N then Some (n - 65 + 10)%N
  else None.

(** [None] is the error of a [%] that two hexadecimal digits do not
    follow. *)
Fixpoint unescape (s : string) : option string :=
  match s with
  | EmptyString => Some EmptyString
  | String c r =>
      if Ascii.eqb c "%" then
        match r with
        | String a (String b r') =>
            match unhex a, unhex b with
            | Some x, Some y =>
                match unescape r' with
                | Some t => Some (String (ascii_of_N (16 * x + y)) t)
                | None => None
                end
            | _, _ => None
            end
        | _ => None
        end
      else
        match unescape r with
        | Some t => Some (String c t)
        | None => None
        end
  end.

Fixpoint validEncoded (s : string) : bool :=
  match s with
  | EmptyString => true
  | String c r =>
      (mem_byte c "!$&'()*+,;=:@[]%" || negb (shouldEscape c)) && validEncoded r
  end.

(** [EscapedPath]: [RawPath] when it is a valid encoding of [Path], the
    default encoding of [Path] otherwise. *)
Definition EscapedPath (u : URL) : string :=
  if bool_decide (RawPath u ≠ EmptyString) && validEncoded (RawPath u)
     && bool_decide (unescape (RawPath u) = Some (Path u))
  then RawPath u
  else if decide (Path u = String "042" EmptyString) then String "042" EmptyString
  else escape (Path u).

(** [strings.Contains(segment, ":")] for the part of [path] before its first
    slash. *)
Fixpoint colon_in_first_segment (path : string) : bool :=
  match path with
  | EmptyString => false
  | String c r =>
      if Ascii.eqb c "/" then false
      else if Ascii.eqb c ":" then true
      else colon_in_first_segment r
  end.

(** *** The [String] method of [URL] *)

(** What [String] writes for the user information, the query and the
    fragment. *)
Definition userinfo (u : URL) : string :=
  match User u with
  | Some ui => ui +:+ "@"
  | None => EmptyString
  end.

Definition query (u : URL) : string :=
  if ForceQuery u || bool_decide (RawQuery u ≠ EmptyString)
  then "?" +:+ RawQuery u else EmptyString.

Definition fragment (u : URL) : string :=
  if decide (Fragment u ≠ EmptyString) then "#" +:+ Fragment u else EmptyString.

(** [scheme:opaque?query#fragment] when there is an opaque part, and
    [scheme://userinfo@host/path?query#fragment] otherwise, each part
    written only if it is there. *)
Definition URL_String (u : URL) : string :=
  let scheme :=
    if decide (Scheme u ≠ EmptyString) then Scheme u +:+ ":" else EmptyString in
  let rest :=
    if decide (Opaque u ≠ EmptyString) then Opaque u
    else
      let authority :=
        if decide (Scheme u ≠ EmptyString ∨ Host u ≠ EmptyString ∨ User u ≠ None)
        then
          if OmitHost u && bool_decide (Host u = EmptyString)
             && bool_decide (User u = None)
          then EmptyString
          else
            (if decide (Host u ≠ EmptyString ∨ Path u ≠ EmptyString ∨ User u ≠ None)
             then "//" else EmptyString)
            +:+ userinfo u +:+ Host u
        else EmptyString in
      let path := EscapedPath u in
      let slash :=
        match path with
        | String c _ =>
            if decide (c ≠ "/"%char ∧ Host u ≠ EmptyString) then "/" else EmptyString
        | EmptyString => EmptyString
        end in
      let dot :=
        if decide (scheme +:+ authority +:+ slash = EmptyString)
        then (if colon_in_first_segment path then "./" else EmptyString)
        else EmptyString in
      authority +:+ slash +:+ dot +:+ path in
  scheme +:+ rest +:+ query u +:+ fragment u.

(** ** The outbound request and its outcome *)

Record HTTPRequest := {
  Method : string;
  ReqURL : string;
  ReqHeader : list (string * string);
  ReqBody : string
}.

(** What [http.DefaultClient.Do] gives back: a transport error, or a
    response, of which only the status code is read. *)
Inductive DoResult :=
  | DoError (msg : string)
  | DoResponse (StatusCode : Z).

(** ** Shared state and observable events *)

Record State := {
  lgtmCount : gmap Z Z;
  glURL : URL
}.

Inductive LogLine :=
  | LogRequest                          (* line 81 *)
  | LogErrorOccurs (errMsg : string)    (* line 87 *)
  | LogDebugComment (comment : Comment) (* line 114 *)
  | LogCounter (counter : gmap Z Z)     (* line 146 *)
  | LogCanBeMerged                      (* line 149 *)
  | LogExecuteError (msg : string)      (* line 178 *)
  | LogAccepted                         (* line 185 *)
  | LogConflict                         (* line 188 *)
  | LogAlreadyMerged.                   (* line 191 *)

(** What a function does that can be seen from outside: a log line, a
    call of [acceptMergeRequest] with its arguments, a request sent. *)
Inductive Event :=
  | Log (l : LogLine)
  | Invoke (projectID mergeRequestID : Z) (shouldRemoveSourceBranch : bool)
  | Send (req : HTTPRequest).

(** ** [encoding/json] and [fmt], as far as the program uses them *)

Definition quote : string := String "034" EmptyString.

(** A JSON string literal; the keys and values marshalled below hold no
    byte that needs an escape. *)
Definition json_string (s : string) : string := quote +:+ s +:+ quote.

Fixpoint json_members (kvs : list (string * string)) : string :=
  match kvs with
  | [] => EmptyString
  | (k, v) :: rest =>
      json_string k +:+ ":" +:+ json_string v
      +:+ (match rest with [] => EmptyString | _ => "," +:+ json_members rest end)
  end.

(** [json.Marshal] on a [map[string]string], given by its entries in key
    order; it has no failing case on such a map. *)
Definition json_Marshal (kvs : list (string * string)) : string :=
  "{" +:+ json_members kvs +:+ "}".

(** ** The HTTP exchange of the webhook *)

(** [http.Header]: canonical key to the values sent under it. *)
Definition Header_Get (h : gmap string (list string)) (key : string) : string :=
  match h !! key with
  | Some (v :: _) => v
  | _ => EmptyString
  end.

Record Request := {
  Header : gmap string (list string);
  Body : option string
}.

(** [http.ResponseWriter]: the status line goes out with the first of
    [WriteHeader] and [Write]; [Write] alone sends 200. *)
Record ResponseWriter := {
  wroteHeader : option Z;
  written : string
}.

Definition newResponseWriter : ResponseWriter :=
  {| wroteHeader := None; written := EmptyString |}.

Definition WriteHeader (w : ResponseWriter) (code : Z) : ResponseWriter :=
  match wroteHeader w with
  | Some _ => w
  | None => {| wroteHeader := Some code; written := written w |}
  end.

Definition Write (w : ResponseWriter) (b : string) : ResponseWriter :=
  {| wroteHeader := Some (default StatusOK (wroteHeader w));
     written := written w +:+ b |}.

Section Hook.

(** The [private_token] flag. *)
Variable privateToken : string.

(** [json.NewDecoder(body).Decode(&comment)]: the error's text, or the
    decoded event. *)
Variable json_Decode : string -> string + Comment.

(** What [fmt] prints for a format from its first [%] on when no operand
    is given. *)
Variable fmt_directive : string -> string.

(** [fmt.Sprintf(format)] with no operand: plain bytes are copied. *)
Fixpoint Sprintf0 (format : string) : string :=
  match format with
  | EmptyString => EmptyString
  | String c r =>
      if Ascii.eqb c "%" then fmt_directive format else String c (Sprintf0 r)
  end.

Definition Fprintf0 (w : ResponseWriter) (format : string) : ResponseWriter :=
  Write w (Sprintf0 format).

(** *** [acceptMergeRequest] (main.go, lines 156-193)

    One call, from its first line to its last with no other call in
    between; [MergeRace] below cuts it at its accesses to [glURL].
    [resp] is what [http.DefaultClient.Do] has for the request.
    [json.Marshal] of a string map and [http.NewRequest] with the method
    [PUT] and a URL printed from [glURL] do not fail, so their error
    returns (lines 161-164 and 168-171) are left out. [Header.Set] stores
    a key in canonical form: [PRIVATE-TOKEN] as [Private-Token]. *)

Definition mergePath (projectID mergeRequestID : Z) : string :=
  "/api/v3/projects/" +:+ pretty projectID
  +:+ "/merge_requests/" +:+ pretty mergeRequestID +:+ "/merge".

Definition acceptMergeRequest (resp : DoResult) (st : State)
    (projectID mergeRequestID : Z) (shouldRemoveSourceBranch : bool)
    : State * list Event :=
  let params := [("should_remove_source_branch", "true")] in
  let bodyBytes := json_Marshal params in
  let u := withPath (glURL st) (mergePath projectID mergeRequestID) in
  let st' := {| lgtmCount := lgtmCount st; glURL := u |} in
  let req := {| Method := "PUT"; ReqURL := URL_String u;
                ReqHeader := [("Conntent-Type", "application/json");
                              ("Private-Token", privateToken)];
                ReqBody := bodyBytes |} in
  (st',
   Invoke projectID mergeRequestID shouldRemoveSourceBranch :: Send req ::
   match resp with
   | DoError msg => [Log (LogExecuteError msg)]
   | DoResponse code =>
       if decide (code = StatusOK) then [Log LogAccepted]
       else if decide (code = StatusMethodNotAllowed) then [Log LogConflict]
       else if decide (code = StatusNotAcceptable) then [Log LogAlreadyMerged]
       else []
   end).

(** *** [checkLgtm] (main.go, lines 113-154)

    Its [error] result is [nil] on every path and is left out. *)

(** The critical section, lines 134-144: the new map and [canbeMerged]. *)
Definition countLgtm (m : gmap Z Z) (id : Z) : gmap Z Z * bool :=
  match m !! id with
  | Some count =>
      let newCount := int_add count 1 in
      (<[id := newCount]> m, bool_decide (ValidLGTMCount ≤ newCount))
  | None => (<[id := 1]> m, false)
  end.

Definition checkLgtm (resp : DoResult) (st : State) (comment : Comment)
    : State * list Event :=
  let t0 := [Log (LogDebugComment comment)] in
  if decide (ObjectKind comment ≠ ObjectNote) then (st, t0)
  else if decide (NoteableType (ObjectAttributes comment) ≠ NoteableTypeMergeRequest)
  then (st, t0)
  else if decide (ToUpper (Note (ObjectAttributes comment)) ≠ NoteLGTM)
  then (st, t0)
  else
    let id := ID (MergeRequest comment) in
    let (m', canbeMerged) := countLgtm (lgtmCount st) id in
    let st1 := {| lgtmCount := m'; glURL := glURL st |} in
    let t1 := t0 ++ [Log (LogCounter m')] in
    if canbeMerged
       && bool_decide (MergeStatus (MergeRequest comment) = StatusCanbeMerged)
    then
      let (st2, t2) :=
        acceptMergeRequest resp st1 (ProjectID comment) id
          (ForceRemoveSourceBranch (MergeParams (MergeRequest comment))) in
      (st2, t1 ++ Log LogCanBeMerged :: t2)
    else (st1, t1).

(** *** [LGTM], the handler (main.go, lines 80-111) *)

(** The deferred function, lines 84-93. *)
Definition respond (w : ResponseWriter) (errRet : option string)
    : ResponseWriter * list Event :=
  match errRet with
  | Some e =>
      let errMsg := "error occurs:" +:+ e in
      (Fprintf0 (WriteHeader w StatusBadRequest) errMsg,
       [Log (LogErrorOccurs errMsg)])
  | None => (Write w RespOK, [])
  end.

Definition LGTM (resp : DoResult) (st : State) (r : Request)
    : State * ResponseWriter * list Event :=
  let w := newResponseWriter in
  let t0 := [Log LogRequest] in
  if decide (Header_Get (Header r) "Content-Type" ≠ "application/json") then
    let (w', t) := respond w (Some ErrInvalidContentType) in (st, w', t0 ++ t)
  else
    match Body r with
    | None =>
        let (w', t) := respond w (Some ErrInvalidRequest) in (st, w', t0 ++ t)
    | Some body =>
        match json_Decode body with
        | inl err =>
            let (w', t) := respond w (Some err) in (st, w', t0 ++ t)
        | inr comment =>
            let (st', t1) := checkLgtm resp st comment in
            let (w', t) := respond w None in
            (st', w', t0 ++ t1 ++ t)
        end
    end.

(** *** Events handled one after the other

    Each event comes with the outcome the remote has for its merge call,
    should one be made. *)
Fixpoint run (st : State) (evs : list (DoResult * Comment))
    : State * list Event :=
  match evs with
  | [] => (st, [])
  | (resp, comment) :: rest =>
      let (st1, t1) := checkLgtm resp st comment in
      let (st2, t2) := run st1 rest in
      (st2, t1 ++ t2)
  end.

End Hook.

(** ** Reading a trace *)

(** The calls of [acceptMergeRequest] in a trace, with their arguments. *)
Fixpoint merge_calls (t : list Event) : list (Z * Z * bool) :=
  match t with
  | [] => []
  | Invoke p m b :: t' => (p, m, b) :: merge_calls t'
  | _ :: t' => merge_calls t'
  end.

(** The requests sent in a trace. *)
Fixpoint sent (t : list Event) : list HTTPRequest :=
  match t with
  | [] => []
  | Send r :: t' => r :: sent t'
  | _ :: t' => sent t'
  end.

(** The log lines of a trace. *)
Fixpoint logged (t : list Event) : list LogLine :=
  match t with
  | [] => []
  | Log l :: t' => l :: logged t'
  | _ :: t' => logged t'
  end.

(** The calls of [acceptMergeRequest] for one merge request. *)
Definition calls_for (k : Z) (t : list Event) : nat :=
  length (filter (λ x, x.1.2 = k) (merge_calls t)).

(** ** Vocabulary of the statements *)

(** [lgtmCount[k]] as Go reads it: zero for an absent key. *)
Definition count_of (m : gmap Z Z) (k : Z) : Z := default 0 (m !! k).

(** The three tests of [checkLgtm] (lines 115, 120 and 125) all pass. *)
Definition qualifying (c : Comment) : Prop :=
  ObjectKind c = ObjectNote
  ∧ NoteableType (ObjectAttributes c) = NoteableTypeMergeRequest
  ∧ ToUpper (Note (ObjectAttributes c)) = NoteLGTM.

#[global] Instance qualifying_dec c : Decision (qualifying c).
Proof. unfold qualifying. apply _. Defined.

(** The sixteen ways of writing the keyword in upper and lower case. *)
Definition spellings : list string :=
  ["lgtm"; "lgtM"; "lgTm"; "lgTM"; "lGtm"; "lGtM"; "lGTm"; "lGTM";
   "Lgtm"; "LgtM"; "LgTm"; "LgTM"; "LGtm"; "LGtM"; "LGTm"; "LGTM"].

(** The number of qualifying events for merge request [k] in a sequence. *)
Definition qualified_for (k : Z) (evs : list (DoResult * Comment)) : nat :=
  length (filter (λ e, qualifying e.2 ∧ ID (MergeRequest e.2) = k) evs).

Definition mkComment (kind note noteable : string) (project id : Z)
    (status : string) (force : bool) : Comment :=
  {| ObjectKind := kind; ProjectID := project;
     ObjectAttributes := {| Note := note; NoteableType := noteable |};
     MergeRequest := {| ID := id; MergeStatus := status;
                        MergeParams := {| ForceRemoveSourceBranch := force |} |} |}.

(** The state at start-up: no counter, the URL of the [gitlab_url] flag. *)
Definition initState (u : URL) : State := {| lgtmCount := ∅; glURL := u |}.

(** What [url.Parse] makes of [https://your.gitlab.com], the example of the
    flag's help text. *)
Definition exampleURL : URL :=
  {| Scheme := "https"; Opaque := EmptyString; User := None;
     Host := "your.gitlab.com"; Path := EmptyString; RawPath := EmptyString;
     OmitHost := false; ForceQuery := false; RawQuery := EmptyString;
     Fragment := EmptyString |}.

(** An approving comment on merge request 42 of project 7. *)
Definition lgtm42 : Comment :=
  mkComment "note" "LGTM" "MergeRequest" 7 42 "can_be_merged" false.

(** A token, and the state after one approval of merge request 42. *)
Definition token : string := "s3cr3t".

Definition after_one : State :=
  (run token (initState exampleURL) [(DoResponse 200, lgtm42)]).1.

(** A decoder that knows one body, and the header of a delivery. *)
Definition decode_lgtm42 (body : string) : string + Comment :=
  if decide (body = "lgtm42") then inr lgtm42 else inl "unexpected end of JSON input".

Definition jsonHeader (contentType : string) : gmap string (list string) :=
  {[ "Content-Type" := [contentType] ]}.

(** A schedule of three goroutines: all three pass the tests, then
    goroutine 1 takes the mutex, and 2 and 0 take it in turn while the
    others log and merge. *)
Definition interleaved : list nat :=
  [0; 1; 2; 1; 1; 1; 1; 2; 1; 2; 2; 1; 2; 0; 2; 0; 0; 2; 0; 0; 0]%nat.

(** ** Handlers running concurrently

    [net/http] runs [LGTM] in one goroutine per request. A goroutine's
    [checkLgtm] is cut at its accesses to the shared [mutex] and
    [lgtmCount]; a schedule picks which goroutine takes its next step. *)

Module Interleaving.

(** Where a goroutine stands in [checkLgtm]. *)
Inductive PC :=
  | AtCheck                       (* lines 115-128, the three tests *)
  | AtLock                        (* line 134, before mutex.Lock() *)
  | AtLookup                      (* line 135, holding the mutex *)
  | AtStore (found : option Z)    (* lines 136-143, count, ok in hand *)
  | AtUnlock (canbeMerged : bool) (* line 144 *)
  | AtLog (canbeMerged : bool)    (* line 146, reads the map, mutex released *)
  | AtMerge (canbeMerged : bool)  (* lines 148-151 *)
  | Finished.

#[global] Instance PC_eq_dec : EqDecision PC.
Proof. solve_decision. Defined.

Record Goroutine := {
  comment : Comment;
  pc : PC
}.

Record Shared := {
  mutexLocked : bool;
  counter : gmap Z Z
}.

(** The next step of a goroutine handling [c]; [None] when it has none:
    it waits for the mutex, or it has returned. The log line and the merge
    call leave the mutex and the counter map alone.

    The step at [AtLog] reads the map after [Unlock]. When that read meets
    the store of another goroutine, the Go runtime may end the whole
    process (fatal error: concurrent map iteration and map write). The
    model has no step for that: it tells what the goroutines do for as
    long as the process runs, and a schedule that it carries to the end is
    one in which the runtime did not intervene. *)
Definition advance (c : Comment) (sh : Shared) (p : PC) : option (Shared * PC) :=
  let id := ID (MergeRequest c) in
  match p with
  | AtCheck => Some (sh, if decide (qualifying c) then AtLock else Finished)
  | AtLock =>
      if mutexLocked sh then None
      else Some ({| mutexLocked := true; counter := counter sh |}, AtLookup)
  | AtLookup => Some (sh, AtStore (counter sh !! id))
  | AtStore (Some count) =>
      let newCount := int_add count 1 in
      Some ({| mutexLocked := mutexLocked sh;
               counter := <[id := newCount]> (counter sh) |},
            AtUnlock (bool_decide (ValidLGTMCount ≤ newCount)))
  | AtStore None =>
      Some ({| mutexLocked := mutexLocked sh;
               counter := <[id := 1]> (counter sh) |},
            AtUnlock false)
  | AtUnlock b => Some ({| mutexLocked := false; counter := counter sh |}, AtLog b)
  | AtLog b => Some (sh, AtMerge b)
  | AtMerge b => Some (sh, Finished)
  | Finished => None
  end.

(** Goroutine [i] takes a step. *)
Definition sched_step (i : nat) (cfg : Shared * list Goroutine)
    : option (Shared * list Goroutine) :=
  match cfg.2 !! i with
  | None => None
  | Some g =>
      match advance (comment g) cfg.1 (pc g) with
      | None => None
      | Some (sh', p') =>
          Some (sh', <[i := {| comment := comment g; pc := p' |}]> cfg.2)
      end
  end.

(** A schedule, step by step; [None] if it picks a goroutine that cannot
    move. *)
Fixpoint exec (sched : list nat) (cfg : Shared * list Goroutine)
    : option (Shared * list Goroutine) :=
  match sched with
  | [] => Some cfg
  | i :: rest =>
      match sched_step i cfg with
      | None => None
      | Some cfg' => exec rest cfg'
      end
  end.

(** One goroutine per event, all at the entry of [checkLgtm], the mutex
    free and the counter map as at start-up. *)
Definition spawn (evs : list Comment) : Shared * list Goroutine :=
  ({| mutexLocked := false; counter := ∅ |},
   (λ c, {| comment := c; pc := AtCheck |}) <$> evs).

Definition all_finished (cfg : Shared * list Goroutine) : Prop :=
  Forall (λ g, pc g = Finished) cfg.2.

(** The qualifying events for merge request [k] among [evs]. *)
Definition approvals (k : Z) (evs : list Comment) : nat :=
  length (filter (λ c, qualifying c ∧ ID (MergeRequest c) = k) evs).

(** Sums over the goroutines. *)
Fixpoint tally (f : Goroutine → nat) (gs : list Goroutine) : nat :=
  match gs with
  | [] => 0
  | g :: gs' => f g + tally f gs'
  end.

(** 1 for a goroutine between [Lock] and [Unlock]. *)
Definition holding (g : Goroutine) : nat :=
  match pc g with
  | AtLookup | AtStore _ | AtUnlock _ => 1
  | _ => 0
  end.

(** 1 for a goroutine that has stored its increment for [k]. *)
Definition stored (k : Z) (g : Goroutine) : nat :=
  if decide (ID (MergeRequest (comment g)) = k) then
    match pc g with
    | AtUnlock _ | AtLog _ | AtMerge _ => 1
    | Finished => if decide (qualifying (comment g)) then 1 else 0
    | _ => 0
    end
  else 0.

(** What every reachable configuration satisfies: the mutex is held by
    exactly the goroutines in the critical section, at most one; the
    counter of [k] is the number of increments stored for it; a goroutine
    about to store has read the current entry; a goroutine past the tests
    handles a qualifying event. *)
Definition Inv (cfg : Shared * list Goroutine) : Prop :=
  tally holding cfg.2 = (if mutexLocked cfg.1 then 1 else 0)%nat
  ∧ (∀ k, counter cfg.1 !! k =
          if decide (tally (stored k) cfg.2 = 0%nat) then None
          else Some (Z.of_nat (tally (stored k) cfg.2)))
  ∧ (∀ i g v, cfg.2 !! i = Some g → pc g = AtStore v →
              v = counter cfg.1 !! ID (MergeRequest (comment g)))
  ∧ (∀ i g, cfg.2 !! i = Some g → pc g ≠ AtCheck → pc g ≠ Finished →
            qualifying (comment g)).

End Interleaving.

(** ** More vocabulary: requests, paths, start-up *)

(** [Header.Get] on the header of an outbound request: the value stored
    under a canonical key, if any. *)
Fixpoint header_value (h : list (string * string)) (key : string) : option string :=
  match h with
  | [] => None
  | (k, v) :: rest => if decide (k = key) then Some v else header_value rest key
  end.

(** The URL a merge call for [projectID] and [mergeRequestID] goes to when
    the configured URL is [u]. *)
Definition mergeURL (u : URL) (projectID mergeRequestID : Z) : string :=
  URL_String (withPath u (mergePath projectID mergeRequestID)).

(** The requests of a trace follow its calls: one request per call, to the
    URL printed from [u] with the call's own path in it, with the token;
    and the shared URL is [u] with the path of the last call, or [u0] when
    there was no call. *)
Definition follows (privateToken : string) (u u0 : URL)
    (out : State * list Event) : Prop :=
  glURL out.1 =
    match last (merge_calls out.2) with
    | Some x => withPath u (mergePath x.1.1 x.1.2)
    | None => u0
    end
  ∧ ReqURL <$> sent out.2 = (λ x, mergeURL u x.1.1 x.1.2) <$> merge_calls out.2
  ∧ Forall (λ r, Method r = "PUT"
                 ∧ ReqBody r = json_Marshal [("should_remove_source_branch", "true")]
                 ∧ header_value (ReqHeader r) "Private-Token" = Some privateToken
                 ∧ header_value (ReqHeader r) "Content-Type" = None)
      (sent out.2).

(** Every byte of [s] satisfies [P]. *)
Fixpoint bytes_all (P : ascii → bool) (s : string) : bool :=
  match s with
  | EmptyString => true
  | String c r => P c && bytes_all P r
  end.

(** No byte of [s] is a slash; no byte of [s] is escaped in a path. *)
Definition slashfree (s : string) : bool :=
  bytes_all (λ c, negb (Ascii.eqb c "/")) s.

Definition unreserved (s : string) : bool :=
  bytes_all (λ c, negb (shouldEscape c)) s.

(** What [url.Parse] makes of [localhost:8080], a scheme and an opaque
    part, and of [https://user:pw@host?x=1]. *)
Definition localhostURL : URL :=
  {| Scheme := "localhost"; Opaque := "8080"; User := None;
     Host := EmptyString; Path := EmptyString; RawPath := EmptyString;
     OmitHost := false; ForceQuery := false; RawQuery := EmptyString;
     Fragment := EmptyString |}.

Definition userURL : URL :=
  {| Scheme := "https"; Opaque := EmptyString; User := Some "user:pw";
     Host := "host"; Path := EmptyString; RawPath := EmptyString;
     OmitHost := false; ForceQuery := false; RawQuery := "x=1";
     Fragment := EmptyString |}.

(** An approval of merge request 42 from another project, reported as
    not mergeable. *)
Definition lgtm42_elsewhere : Comment :=
  mkComment "note" "lgtm" "MergeRequest" 8 42 "cannot_be_merged" true.

(** Three deliveries of the approval of merge request 42. *)
Definition three_deliveries : list (DoResult * Comment) :=
  [(DoResponse 200, lgtm42); (DoResponse 406, lgtm42); (DoResponse 500, lgtm42)].

(** ** Start-up (main.go, lines 49-78) *)

(** How [main] ends: it returns, it panics, or it blocks for good on the
    receive of line 69, with the handler registered and the server of
    line 66 listening or not. *)
Inductive Startup :=
  | Exits (stdout : list string)
  | Panics (stdout : list string) (msg : string)
  | Blocks (stdout : list string) (glURL : URL) (serving : bool).

Section Startup.

(** [url.Parse]: the error's text, or the URL. *)
Variable url_Parse : string -> string + URL.

(** [parseURL], lines 72-78: the URL, or the panic's text. *)
Definition parseURL (urlStr : string) : string + URL :=
  match url_Parse urlStr with
  | inr u => inr u
  | inl err => inl err
  end.

(** [main] on the two flags. [listenErr] is the error with which
    [http.ListenAndServe] returns, if it does; the goroutine of line 65
    drops it. *)
Definition main (privateToken gitlabURL : string) (listenErr : option string)
    : Startup :=
  if decide (privateToken = EmptyString) then
    Exits ["private token is required"]
  else if decide (gitlabURL = EmptyString) then
    Exits ["gitlab url is required"]
  else
    match parseURL gitlabURL with
    | inl msg => Panics [] msg
    | inr u =>
        Blocks ["start http server"] u
          (match listenErr with None => true | Some _ => false end)
    end.

End Startup.

(** ** Merge calls running concurrently

    [acceptMergeRequest] writes the shared [glURL] (line 166) and reads it
    back (line 167) without the mutex. A call is cut at these two
    accesses and at the round trip. *)

Module MergeRace.

Inductive PC :=
  | AtSetPath                   (* line 166 *)
  | AtNewRequest                (* lines 167-174 *)
  | AtDo (req : HTTPRequest)    (* line 176 *)
  | Returned.

Record Call := {
  callProject : Z;
  callMergeRequest : Z;
  callAt : PC
}.

(** The shared URL, and the requests that went out, oldest first. *)
Record Net := {
  sharedURL : URL;
  wire : list HTTPRequest
}.

Definition advance (privateToken : string) (c : Call) (n : Net)
    : option (Net * PC) :=
  match callAt c with
  | AtSetPath =>
      Some ({| sharedURL := withPath (sharedURL n)
                              (mergePath (callProject c) (callMergeRequest c));
               wire := wire n |},
            AtNewRequest)
  | AtNewRequest =>
      Some (n,
            AtDo {| Method := "PUT"; ReqURL := URL_String (sharedURL n);
                    ReqHeader := [("Conntent-Type", "application/json");
                                  ("Private-Token", privateToken)];
                    ReqBody := json_Marshal [("should_remove_source_branch", "true")] |})
  | AtDo req =>
      Some ({| sharedURL := sharedURL n; wire := wire n ++ [req] |}, Returned)
  | Returned => None
  end.

Definition sched_step (privateToken : string) (i : nat) (cfg : Net * list Call)
    : option (Net * list Call) :=
  match cfg.2 !! i with
  | None => None
  | Some c =>
      match advance privateToken c cfg.1 with
      | None => None
      | Some (n', p') =>
          Some (n', <[i := {| callProject := callProject c;
                              callMergeRequest := callMergeRequest c;
                              callAt := p' |}]> cfg.2)
      end
  end.

Fixpoint exec (privateToken : string) (sched : list nat) (cfg : Net * list Call)
    : option (Net * list Call) :=
  match sched with
  | [] => Some cfg
  | i :: rest =>
      match sched_step privateToken i cfg with
      | None => None
      | Some cfg' => exec privateToken rest cfg'
      end
  end.

(** Calls for the given projects and merge requests, all at their start. *)
Definition calls (u : URL) (args : list (Z * Z)) : Net * list Call :=
  ({| sharedURL := u; wire := [] |},
   (λ a, {| callProject := a.1; callMergeRequest := a.2; callAt := AtSetPath |})
   <$> args).

End MergeRace.

(** ** Machine arithmetic *)

Ltac int_consts :=
  unfold int_add, wrap, MaxInt, MinInt, intSize, ValidLGTMCount in *;
  change (2 ^ (64 - 1)) with 9223372036854775808 in *;
  change (2 ^ 64) with 18446744073709551616 in *.

Lemma wrap_range z : MinInt ≤ wrap z ≤ MaxInt.
Proof. int_consts. Z.div_mod_to_equations. lia. Qed.

Lemma wrap_small z : MinInt ≤ z ≤ MaxInt → wrap z = z.
Proof. int_consts. intros. rewrite Z.mod_small; lia. Qed.

Lemma wrap_wrap_add a b : wrap (wrap a + b) = wrap (a + b).
Proof.
  unfold wrap. f_equal.
  replace ((a - MinInt) `mod` 2 ^ intSize + MinInt + b - MinInt)
    with ((a - MinInt) `mod` 2 ^ intSize + b) by lia.
  rewrite Zplus_mod_idemp_l. f_equal. lia.
Qed.

Lemma int_add_succ c : MinInt ≤ c < MaxInt → int_add c 1 = c + 1.
Proof. intros. unfold int_add. apply wrap_small. lia. Qed.

Lemma int_add_changes c : int_add c 1 ≠ c.
Proof. int_consts. Z.div_mod_to_equations. lia. Qed.

(** ** [strings.ToUpper] against the keyword *)

Lemma ToUpper_cons c r :
  ToUpper (String c r) =
  match r with
  | String d r' =>
      if (Ascii.eqb c "196" && Ascii.eqb d "177")%bool
      then String "I" (ToUpper r')
      else if (Ascii.eqb c "197" && Ascii.eqb d "191")%bool
      then String "S" (ToUpper r')
      else String (upper_byte c) (ToUpper r)
  | EmptyString => String (upper_byte c) EmptyString
  end.
Proof. by destruct r. Qed.

Lemma ToUpper_empty s : ToUpper s = EmptyString → s = EmptyString.
Proof.
  destruct s as [|c r]; [done|]. rewrite ToUpper_cons.
  destruct r as [|d r']; [done|]. by repeat destruct (_ && _)%bool.
Qed.

Lemma ToUpper_letter s a t :
  ToUpper s = String a t → a ≠ "I"%char → a ≠ "S"%char →
  ∃ c r, s = String c r ∧ upper_byte c = a ∧ ToUpper r = t.
Proof.
  destruct s as [|c r]; [done|]. rewrite ToUpper_cons. intros H HI HS.
  exists c, r. destruct r as [|d r'].
  - by injection H as <- <-.
  - destruct (_ && _)%bool; [by injection H as <- _|].
    destruct (_ && _)%bool; [by injection H as <- _|].
    by injection H as <- <-.
Qed.

Lemma upper_byte_letter c a lo :
  (65 ≤ N_of_ascii a ≤ 90)%N → lo = ascii_of_N (N_of_ascii a + 32) →
  upper_byte c = a → c = lo ∨ c = a.
Proof.
  intros Ha -> Hc. unfold upper_byte in Hc.
  destruct ((97 <=? N_of_ascii c) && (N_of_ascii c <=? 122))%N eqn:Hl.
  - left. apply andb_prop in Hl as [H1 H2].
    apply N.leb_le in H1, H2. subst a.
    rewrite N_ascii_embedding by lia.
    replace (N_of_ascii c - 32 + 32)%N with (N_of_ascii c) by lia.
    by rewrite ascii_N_embedding.
  - by right.
Qed.

Lemma ToUpper_LGTM s : ToUpper s = NoteLGTM ↔ s ∈ spellings.
Proof.
  split.
  - intros H.
    apply ToUpper_letter in H as (c1 & r1 & -> & H1 & H); [|done..].
    apply ToUpper_letter in H as (c2 & r2 & -> & H2 & H); [|done..].
    apply ToUpper_letter in H as (c3 & r3 & -> & H3 & H); [|done..].
    apply ToUpper_letter in H as (c4 & r4 & -> & H4 & H); [|done..].
    apply ToUpper_empty in H as ->.
    assert (Hcase : ∀ a lo c,
              (65 <=? N_of_ascii a)%N && (N_of_ascii a <=? 90)%N = true →
              lo = ascii_of_N (N_of_ascii a + 32) →
              upper_byte c = a → c = lo ∨ c = a).
    { intros a lo c Ha. apply upper_byte_letter.
      apply andb_prop in Ha as [? ?]. split; by apply N.leb_le. }
    apply (Hcase _ "l"%char) in H1 as [-> | ->]; [| |done..];
      (apply (Hcase _ "g"%char) in H2 as [-> | ->]; [| |done..]);
      (apply (Hcase _ "t"%char) in H3 as [-> | ->]; [| |done..]);
      (apply (Hcase _ "m"%char) in H4 as [-> | ->]; [| |done..]);
      unfold spellings;
      repeat first [apply list_elem_of_here | apply list_elem_of_further].
  - unfold spellings. intros H.
    repeat (apply elem_of_cons in H as [->|H]); [by vm_compute..|].
    by apply elem_of_nil in H.
Qed.

(** ** The counter update *)

Lemma countLgtm_lookup m id :
  (countLgtm m id).1 !! id = Some (wrap (count_of m id + 1)).
Proof.
  unfold countLgtm, count_of. destruct (m !! id) as [c|]; simpl.
  - by rewrite lookup_insert_eq.
  - by rewrite lookup_insert_eq.
Qed.

Lemma countLgtm_lookup_ne m id k :
  k ≠ id → (countLgtm m id).1 !! k = m !! k.
Proof.
  intros Hk. unfold countLgtm.
  destruct (m !! id); simpl; by rewrite lookup_insert_ne.
Qed.

Lemma countLgtm_absent m id :
  m !! id = None → (countLgtm m id).1 !! id = Some 1.
Proof. intros H. unfold countLgtm. rewrite H. simpl. apply lookup_insert_eq. Qed.

Lemma countLgtm_present m id c :
  m !! id = Some c → (countLgtm m id).1 !! id = Some (int_add c 1).
Proof. intros H. unfold countLgtm. rewrite H. simpl. apply lookup_insert_eq. Qed.

Lemma countLgtm_flag m id :
  (countLgtm m id).2 = bool_decide (ValidLGTMCount ≤ count_of (countLgtm m id).1 id).
Proof.
  unfold countLgtm, count_of. destruct (m !! id) as [c|]; simpl.
  - by rewrite lookup_insert_eq.
  - rewrite lookup_insert_eq. reflexivity.
Qed.

Lemma countLgtm_changes m id : (countLgtm m id).1 ≠ m.
Proof.
  intros Heq. pose proof (countLgtm_lookup m id) as Hl. rewrite Heq in Hl.
  unfold count_of in Hl. destruct (m !! id) as [c|] eqn:Hm; [|done].
  simpl in Hl. apply (int_add_changes c). unfold int_add. congruence.
Qed.

Section HookFacts.

Variable privateToken : string.

Lemma checkLgtm_skip resp st c :
  ¬ qualifying c →
  checkLgtm privateToken resp st c = (st, [Log (LogDebugComment c)]).
Proof.
  unfold qualifying, checkLgtm. intros H.
  destruct (decide _) as [|H1]; [done|].
  destruct (decide _) as [|H2]; [done|].
  destruct (decide _) as [|H3]; [done|].
  exfalso. apply H. repeat split; by apply dec_stable.
Qed.

Lemma lgtmCount_checkLgtm resp st c :
  lgtmCount (checkLgtm privateToken resp st c).1 =
  if decide (qualifying c)
  then (countLgtm (lgtmCount st) (ID (MergeRequest c))).1
  else lgtmCount st.
Proof.
  case_decide as Hq; [|by rewrite checkLgtm_skip].
  destruct Hq as (H1 & H2 & H3). unfold checkLgtm.
  rewrite !decide_False by (by intros ?).
  destruct (countLgtm _ _) as [m' fl]. simpl.
  by destruct (fl && _).
Qed.

Lemma merge_calls_app t1 t2 : merge_calls (t1 ++ t2) = merge_calls t1 ++ merge_calls t2.
Proof.
  induction t1 as [|[] t1 IH]; simpl; [done| | |]; by rewrite ?IH.
Qed.

Lemma merge_calls_checkLgtm resp st c :
  merge_calls (checkLgtm privateToken resp st c).2 =
  if decide (qualifying c)
  then
    if (countLgtm (lgtmCount st) (ID (MergeRequest c))).2
       && bool_decide (MergeStatus (MergeRequest c) = StatusCanbeMerged)
    then [(ProjectID c, ID (MergeRequest c),
           ForceRemoveSourceBranch (MergeParams (MergeRequest c)))]
    else []
  else [].
Proof.
  case_decide as Hq; [|by rewrite checkLgtm_skip].
  destruct Hq as (H1 & H2 & H3). unfold checkLgtm.
  rewrite !decide_False by (by intros ?).
  destruct (countLgtm _ _) as [m' fl]. simpl.
  destruct (fl && _); simpl; [|done].
  destruct resp; simpl; [done|]. by repeat destruct (decide _).
Qed.

Lemma run_cons_state resp c rest st :
  (run privateToken st ((resp, c) :: rest)).1 =
  (run privateToken (checkLgtm privateToken resp st c).1 rest).1.
Proof.
  simpl. destruct (checkLgtm _ _ _ _) as [st1 t1]. simpl.
  by destruct (run _ st1 rest).
Qed.

Lemma run_cons_trace resp c rest st :
  (run privateToken st ((resp, c) :: rest)).2 =
  (checkLgtm privateToken resp st c).2
  ++ (run privateToken (checkLgtm privateToken resp st c).1 rest).2.
Proof.
  simpl. destruct (checkLgtm _ _ _ _) as [st1 t1]. simpl.
  by destruct (run _ st1 rest).
Qed.

Lemma qualified_for_cons k resp c rest :
  qualified_for k ((resp, c) :: rest) =
  if decide (qualifying c ∧ ID (MergeRequest c) = k)
  then S (qualified_for k rest) else qualified_for k rest.
Proof.
  unfold qualified_for. rewrite filter_cons. simpl.
  by destruct (decide _).
Qed.

(** One step, seen from any key [k]. *)
Lemma checkLgtm_lookup resp st c k :
  lgtmCount (checkLgtm privateToken resp st c).1 !! k =
  if decide (qualifying c ∧ ID (MergeRequest c) = k)
  then Some (wrap (count_of (lgtmCount st) k + 1))
  else lgtmCount st !! k.
Proof.
  rewrite lgtmCount_checkLgtm.
  destruct (decide (qualifying c)) as [Hq|Hq].
  - destruct (decide (ID (MergeRequest c) = k)) as [<-|Hk].
    + rewrite decide_True by done. apply countLgtm_lookup.
    + rewrite decide_False by (by intros [_ ?]).
      by apply countLgtm_lookup_ne.
  - by rewrite decide_False by (by intros [? _]).
Qed.

(** A whole run, seen from any key [k]. *)
Lemma run_lookup evs : ∀ st k,
  lgtmCount (run privateToken st evs).1 !! k =
  if decide (qualified_for k evs = 0%nat)
  then lgtmCount st !! k
  else Some (wrap (count_of (lgtmCount st) k + Z.of_nat (qualified_for k evs))).
Proof.
  induction evs as [|[resp c] rest IH]; intros st k; [done|].
  rewrite run_cons_state, IH, qualified_for_cons.
  unfold count_of at 1. rewrite checkLgtm_lookup.
  destruct (decide (qualifying c ∧ _)) as [Hq|Hq]; [|done].
  rewrite (decide_False (P := S _ = 0%nat)) by done. simpl.
  destruct (decide (qualified_for k rest = 0%nat)) as [->|Hn].
  - done.
  - f_equal. rewrite wrap_wrap_add. f_equal. lia.
Qed.

Lemma run_count_of u evs k :
  count_of (lgtmCount (run privateToken (initState u) evs).1) k =
  wrap (Z.of_nat (qualified_for k evs)).
Proof.
  unfold count_of. rewrite run_lookup. unfold initState. simpl.
  rewrite lookup_empty. by destruct (decide _) as [->|].
Qed.

(** ** The claims about [checkLgtm] *)

(** C2. [checkLgtm] reaches the counter update exactly for the events whose
    [object_kind] is [note], whose [noteable_type] is [MergeRequest] and
    whose note, upper-cased, is [LGTM]: for these the counter map becomes
    the one the critical section computes, and it differs from the old one;
    for all others the state is returned as it was. The note is the
    keyword exactly up to the case of its four letters: [lgtm], [LGTM]
    and [LgTm] qualify; [lgtm!] and [lgtm ] do not. *)
Theorem checkLgtm_counts_iff_qualifying resp st c :
  let st' := (checkLgtm privateToken resp st c).1 in
  (lgtmCount st' ≠ lgtmCount st ↔
     ObjectKind c = "note"
     ∧ NoteableType (ObjectAttributes c) = "MergeRequest"
     ∧ ToUpper (Note (ObjectAttributes c)) = "LGTM")
  ∧ (ToUpper (Note (ObjectAttributes c)) = "LGTM" ↔
     Note (ObjectAttributes c) ∈ spellings)
  ∧ (qualifying c →
     lgtmCount st' = (countLgtm (lgtmCount st) (ID (MergeRequest c))).1)
  ∧ (¬ qualifying c → st' = st)
  ∧ (∀ note p id status force, note ∈ ["lgtm"; "LGTM"; "LgTm"] →
     qualifying (mkComment "note" note "MergeRequest" p id status force))
  ∧ (∀ note p id status force, note ∈ ["lgtm!"; "lgtm "] →
     ¬ qualifying (mkComment "note" note "MergeRequest" p id status force)).
Proof.
  simpl. split_and!.
  - rewrite lgtmCount_checkLgtm. fold (qualifying c).
    destruct (decide (qualifying c)) as [Hq|Hq]; split; try done.
    intros _. apply countLgtm_changes.
  - apply ToUpper_LGTM.
  - intros Hq. by rewrite lgtmCount_checkLgtm, decide_True.
  - intros Hq. by rewrite checkLgtm_skip.
  - intros note p id status force Hn.
    repeat (apply elem_of_cons in Hn as [->|Hn]); [by vm_compute..|].
    by apply elem_of_nil in Hn.
  - intros note p id status force Hn (_ & _ & Hu). simpl in Hu.
    repeat (apply elem_of_cons in Hn as [->|Hn]); [by vm_compute in Hu..|].
    by apply elem_of_nil in Hn.
Qed.

(** C1. Handling an event invokes [acceptMergeRequest] if and only if the
    event qualifies (so that there is an increment), the count of its merge
    request right after this increment is at least 2, and its
    [merge_status] is [can_be_merged]. It is then invoked once, with the
    event's project, merge request and flag. It is not invoked when the
    count after the event is 1, whatever the [merge_status], nor for an
    event that does not qualify. *)
Theorem merge_trigger_iff_quorum resp st c :
  let st' := (checkLgtm privateToken resp st c).1 in
  let t := (checkLgtm privateToken resp st c).2 in
  let id := ID (MergeRequest c) in
  (merge_calls t ≠ [] ↔
     qualifying c
     ∧ 2 ≤ count_of (lgtmCount st') id
     ∧ MergeStatus (MergeRequest c) = "can_be_merged")
  ∧ (merge_calls t ≠ [] →
     merge_calls t =
       [(ProjectID c, id, ForceRemoveSourceBranch (MergeParams (MergeRequest c)))])
  ∧ (count_of (lgtmCount st') id = 1 → merge_calls t = [])
  ∧ (¬ qualifying c → merge_calls t = []).
Proof.
  simpl. rewrite merge_calls_checkLgtm, lgtmCount_checkLgtm.
  destruct (decide (qualifying c)) as [Hq|Hq].
  - rewrite countLgtm_flag.
    set (n := count_of _ _). change ValidLGTMCount with 2.
    fold StatusCanbeMerged.
    destruct (decide (2 ≤ n)) as [Hn|Hn];
      [rewrite (bool_decide_eq_true_2 _ Hn)|rewrite (bool_decide_eq_false_2 _ Hn)];
      simpl.
    + destruct (decide (MergeStatus (MergeRequest c) = StatusCanbeMerged)) as [Hs|Hs];
        [rewrite (bool_decide_eq_true_2 _ Hs)|rewrite (bool_decide_eq_false_2 _ Hs)].
      * split_and!; try done. lia.
      * split_and!; try done. split; [done|]. by intros (_ & _ & ?).
    + split_and!; try done. split; [done|]. by intros (_ & ? & _).
  - split_and!; try done. split; [done|]. by intros (? & _).
Qed.

(** C3. For a qualifying event the counter update maps an absent merge
    request to 1 and one with count [cnt] to [cnt + 1] (the [int] sum; the
    mathematical one below [MaxInt]) and leaves every other key as it was.
    Hence after any sequence of events handled one after the other from the
    empty map, the count of a merge request is the number of qualifying
    events seen for it (reduced to an [int]; the number itself up to
    [MaxInt]), and the keys present are those with at least one. *)
Theorem counter_update_counts_events :
  (∀ resp st c, qualifying c →
     let id := ID (MergeRequest c) in
     let m := lgtmCount st in
     let m' := lgtmCount (checkLgtm privateToken resp st c).1 in
     (m !! id = None → m' !! id = Some 1)
     ∧ (∀ cnt, m !! id = Some cnt → m' !! id = Some (int_add cnt 1))
     ∧ (∀ cnt, m !! id = Some cnt → MinInt ≤ cnt < MaxInt →
        m' !! id = Some (cnt + 1))
     ∧ (∀ k, k ≠ id → m' !! k = m !! k))
  ∧ (∀ u evs k,
     let m := lgtmCount (run privateToken (initState u) evs).1 in
     count_of m k = wrap (Z.of_nat (qualified_for k evs))
     ∧ (Z.of_nat (qualified_for k evs) ≤ MaxInt →
        count_of m k = Z.of_nat (qualified_for k evs))
     ∧ (is_Some (m !! k) ↔ qualified_for k evs ≠ 0%nat)).
Proof.
  split.
  - intros resp st c Hq. simpl.
    rewrite lgtmCount_checkLgtm, decide_True by done. split_and!.
    + apply countLgtm_absent.
    + apply countLgtm_present.
    + intros cnt Hm Hc. rewrite (countLgtm_present _ _ _ Hm).
      by rewrite int_add_succ.
    + intros k Hk. by apply countLgtm_lookup_ne.
  - intros u evs k. simpl. split_and!.
    + apply run_count_of.
    + intros Hn. rewrite run_count_of. apply wrap_small.
      unfold MinInt, intSize. lia.
    + rewrite run_lookup. unfold initState. simpl.
      rewrite lookup_empty. destruct (decide _) as [->|Hn].
      * split; [by intros [? ?]|done].
      * split; [done|]. by eexists.
Qed.

(** ** How often the merge call is made *)

Lemma calls_for_app k t1 t2 :
  calls_for k (t1 ++ t2) = (calls_for k t1 + calls_for k t2)%nat.
Proof.
  unfold calls_for. by rewrite merge_calls_app, filter_app, length_app.
Qed.

(** One event calls at most once, and only for its own merge request when
    that one has a counter already. *)
Lemma calls_for_checkLgtm resp st c k :
  (calls_for k (checkLgtm privateToken resp st c).2 ≤
   if decide ((qualifying c ∧ ID (MergeRequest c) = k)
              ∧ is_Some (lgtmCount st !! k)) then 1 else 0)%nat.
Proof.
  unfold calls_for. rewrite merge_calls_checkLgtm.
  destruct (decide (qualifying c)) as [Hq|Hq];
    [|rewrite decide_False by (by intros [[? _] _]); done].
  unfold countLgtm.
  destruct (lgtmCount st !! ID (MergeRequest c)) as [cnt|] eqn:Hm; simpl.
  - destruct (_ && _); simpl; [|lia].
    rewrite filter_cons. simpl.
    destruct (decide (ID (MergeRequest c) = k)) as [<-|Hk]; simpl.
    + by rewrite decide_True by (by rewrite Hm).
    + lia.
  - lia.
Qed.

Lemma calls_for_run evs : ∀ st k,
  (calls_for k (run privateToken st evs).2 ≤
   if decide (is_Some (lgtmCount st !! k))
   then qualified_for k evs else qualified_for k evs - 1)%nat.
Proof.
  induction evs as [|[resp c] rest IH]; intros st k.
  { simpl. by destruct (decide _). }
  rewrite run_cons_trace, calls_for_app, qualified_for_cons.
  pose proof (calls_for_checkLgtm resp st c k) as H1.
  pose proof (IH (checkLgtm privateToken resp st c).1 k) as H2.
  rewrite checkLgtm_lookup in H2.
  destruct (decide (qualifying c ∧ ID (MergeRequest c) = k)) as [Hq|Hq].
  - rewrite decide_True in H2 by done.
    destruct (decide (is_Some (lgtmCount st !! k))) as [Hs|Hs].
    + rewrite decide_True in H1 by done. lia.
    + rewrite decide_False in H1 by (by intros [_ ?]). lia.
  - rewrite decide_False in H1 by (by intros [? _]).
    destruct (decide (is_Some (lgtmCount st !! k))); lia.
Qed.

(** C4, as the code has it. One event invokes [acceptMergeRequest] at most
    once; over a sequence of events from the empty map it is invoked for a
    merge request at most once per qualifying event after the first. It is
    invoked again by every qualifying event that finds a counter of at
    least 1 (below [MaxInt]) and carries [can_be_merged]: nothing records
    that a merge was asked for. *)
Theorem merge_trigger_once_per_event :
  (∀ resp st c k, (calls_for k (checkLgtm privateToken resp st c).2 ≤ 1)%nat)
  ∧ (∀ u evs k,
     (calls_for k (run privateToken (initState u) evs).2
      ≤ qualified_for k evs - 1)%nat)
  ∧ (∀ resp st c cnt,
     qualifying c →
     MergeStatus (MergeRequest c) = "can_be_merged" →
     lgtmCount st !! ID (MergeRequest c) = Some cnt → 1 ≤ cnt < MaxInt →
     calls_for (ID (MergeRequest c)) (checkLgtm privateToken resp st c).2 = 1%nat).
Proof.
  split_and!.
  - intros resp st c k. pose proof (calls_for_checkLgtm resp st c k) as H.
    destruct (decide _); lia.
  - intros u evs k. pose proof (calls_for_run evs (initState u) k) as H.
    unfold initState in H. simpl in H. rewrite lookup_empty in H.
    by rewrite decide_False in H by (by intros [? ?]).
  - intros resp st c cnt Hq Hs Hm Hc.
    unfold calls_for. rewrite merge_calls_checkLgtm, decide_True by done.
    unfold countLgtm. rewrite Hm. simpl.
    rewrite int_add_succ by (unfold MinInt, intSize; lia).
    rewrite bool_decide_eq_true_2 by (unfold ValidLGTMCount; lia).
    rewrite bool_decide_eq_true_2 by done. simpl.
    rewrite filter_cons. simpl. by rewrite decide_True.
Qed.

(** ** The counter map only grows *)

(** One step from a map whose counts lie in [1 .. MaxInt - 1]. *)
Lemma checkLgtm_monotone resp st c :
  (∀ k v, lgtmCount st !! k = Some v → 1 ≤ v < MaxInt) →
  let m := lgtmCount st in
  let m' := lgtmCount (checkLgtm privateToken resp st c).1 in
  (m' = m ∨
   ∃ k, count_of m' k = count_of m k + 1
        ∧ ∀ k', k' ≠ k → m' !! k' = m !! k')
  ∧ (∀ k v, m !! k = Some v → ∃ v', m' !! k = Some v' ∧ v ≤ v')
  ∧ (∀ k v, m' !! k = Some v → 1 ≤ v).
Proof.
  intros Hm. simpl.
  assert (Hstep : ∀ k, wrap (count_of (lgtmCount st) k + 1)
                       = count_of (lgtmCount st) k + 1).
  { intros k. apply wrap_small. unfold count_of.
    destruct (lgtmCount st !! k) as [v|] eqn:Hk; simpl.
    - specialize (Hm k v Hk). unfold MinInt, intSize. lia.
    - by vm_compute. }
  split_and!.
  - rewrite lgtmCount_checkLgtm.
    destruct (decide (qualifying c)) as [Hq|Hq]; [right|by left].
    exists (ID (MergeRequest c)). split.
    + unfold count_of at 1. by rewrite countLgtm_lookup, Hstep.
    + intros k' Hk'. by apply countLgtm_lookup_ne.
  - intros k v Hk. rewrite checkLgtm_lookup.
    destruct (decide _) as [Hq|Hq]; [|by exists v].
    eexists. split; [done|]. rewrite Hstep. unfold count_of. rewrite Hk.
    simpl. lia.
  - intros k v. rewrite checkLgtm_lookup.
    destruct (decide _) as [Hq|Hq].
    + intros [= <-]. rewrite Hstep. unfold count_of.
      destruct (lgtmCount st !! k) as [v|] eqn:Hk; simpl; [|lia].
      specialize (Hm k v Hk). lia.
    + intros Hk. specialize (Hm k v Hk). lia.
Qed.

Lemma qualified_for_le k evs : (qualified_for k evs ≤ length evs)%nat.
Proof. unfold qualified_for. apply length_filter. Qed.

(** The counts of a map reached from the empty one. *)
Lemma run_counts_bounded u evs k v :
  Z.of_nat (length evs) ≤ MaxInt →
  lgtmCount (run privateToken (initState u) evs).1 !! k = Some v →
  1 ≤ v ≤ Z.of_nat (length evs).
Proof.
  intros Hlen. rewrite run_lookup. unfold initState. simpl.
  rewrite lookup_empty. destruct (decide _) as [|Hn]; [done|].
  intros [= <-]. pose proof (qualified_for_le k evs).
  unfold count_of. rewrite lookup_empty. simpl.
  rewrite wrap_small; [lia|]. unfold MinInt, intSize. lia.
Qed.

(** C5. At every step of a run from the empty map (of fewer than [MaxInt]
    events), handling one more event either leaves the counter map as it is
    or raises the count of exactly one key by one and leaves the others as
    they are; no count decreases, no key is removed, and every count
    present is at least 1. *)
Theorem counter_map_monotone u evs resp c :
  Z.of_nat (length evs) < MaxInt →
  let st := (run privateToken (initState u) evs).1 in
  let m := lgtmCount st in
  let m' := lgtmCount (checkLgtm privateToken resp st c).1 in
  (m' = m ∨
   ∃ k, count_of m k < count_of m' k
        ∧ ∀ k', k' ≠ k → m' !! k' = m !! k')
  ∧ (∀ k, count_of m k ≤ count_of m' k)
  ∧ (∀ k, is_Some (m !! k) → is_Some (m' !! k))
  ∧ (∀ k v, m !! k = Some v → 1 ≤ v)
  ∧ (∀ k v, m' !! k = Some v → 1 ≤ v).
Proof.
  intros Hlen. simpl.
  set (st := (run privateToken (initState u) evs).1).
  assert (Hm : ∀ k v, lgtmCount st !! k = Some v → 1 ≤ v < MaxInt).
  { intros k v Hk. apply run_counts_bounded in Hk; lia. }
  destruct (checkLgtm_monotone resp st c Hm) as (Hstep & Hkeep & Hpos).
  split_and!.
  - destruct Hstep as [?|(k & Hk & Hothers)]; [by left|right].
    exists k. split; [lia|done].
  - intros k. unfold count_of.
    destruct (lgtmCount st !! k) as [v|] eqn:Hk; simpl.
    + destruct (Hkeep k v Hk) as (v' & -> & ?). done.
    + destruct (lgtmCount (checkLgtm _ _ _ _).1 !! k) as [v'|] eqn:Hk';
        simpl; [|lia].
      specialize (Hpos k v' Hk'). lia.
  - intros k [v Hk]. destruct (Hkeep k v Hk) as (v' & ? & _). by exists v'.
  - intros k v Hk. specialize (Hm k v Hk). lia.
  - done.
Qed.

(** ** The outbound request *)

Lemma string_app_assoc (a b c : string) : (a +:+ b) +:+ c = a +:+ (b +:+ c).
Proof.
  induction a as [|x a IH]; [done|].
  change (String x ((a +:+ b) +:+ c) = String x (a +:+ (b +:+ c))).
  by rewrite IH.
Qed.

Lemma sent_outcome_log resp :
  sent (match resp with
        | DoError msg => [Log (LogExecuteError msg)]
        | DoResponse code =>
            if decide (code = StatusOK) then [Log LogAccepted]
            else if decide (code = StatusMethodNotAllowed) then [Log LogConflict]
            else if decide (code = StatusNotAcceptable) then [Log LogAlreadyMerged]
            else []
        end) = [].
Proof. destruct resp; [done|]. by repeat destruct (decide _). Qed.

(** What is logged for each outcome of the call; one request, no second
    attempt. *)
Lemma acceptMergeRequest_outcome resp st p m b :
  let out := acceptMergeRequest privateToken resp st p m b in
  length (sent out.2) = 1%nat
  ∧ logged out.2 =
    match resp with
    | DoError msg => [LogExecuteError msg]
    | DoResponse code =>
        if decide (code = 200) then [LogAccepted]
        else if decide (code = 405) then [LogConflict]
        else if decide (code = 406) then [LogAlreadyMerged]
        else []
    end.
Proof.
  simpl. rewrite sent_outcome_log. split; [done|].
  destruct resp as [msg|code]; [done|].
  unfold StatusOK, StatusMethodNotAllowed, StatusNotAcceptable.
  by repeat destruct (decide _).
Qed.

(** C8, at the status the claim fails on. A response with status 500 (a
    status other than 200, 405 and 406) leaves no log line: the [switch]
    of lines 182-192 has no [default]. The request went out once. *)
Theorem unclassified_status_is_not_logged st p m b :
  let out := acceptMergeRequest privateToken (DoResponse 500) st p m b in
  logged out.2 = [] ∧ length (sent out.2) = 1%nat.
Proof. done. Qed.

(** ** The handler *)

Variable json_Decode : string -> string + Comment.
Variable fmt_directive : string -> string.

Lemma LGTM_bad_content_type resp st r :
  Header_Get (Header r) "Content-Type" ≠ "application/json" →
  LGTM privateToken json_Decode fmt_directive resp st r =
  (st,
   {| wroteHeader := Some 400; written := "error occurs:invalid content type" |},
   [Log LogRequest; Log (LogErrorOccurs "error occurs:invalid content type")]).
Proof. intros H. unfold LGTM. by rewrite decide_True. Qed.

Lemma LGTM_no_body resp st r :
  Header_Get (Header r) "Content-Type" = "application/json" →
  Body r = None →
  LGTM privateToken json_Decode fmt_directive resp st r =
  (st,
   {| wroteHeader := Some 400; written := "error occurs:invalid request body" |},
   [Log LogRequest; Log (LogErrorOccurs "error occurs:invalid request body")]).
Proof.
  intros H Hb. unfold LGTM. rewrite decide_False by (by intros ?).
  by rewrite Hb.
Qed.

Lemma LGTM_decode_error resp st r body err :
  Header_Get (Header r) "Content-Type" = "application/json" →
  Body r = Some body → json_Decode body = inl err →
  LGTM privateToken json_Decode fmt_directive resp st r =
  (st,
   {| wroteHeader := Some 400;
      written := Sprintf0 fmt_directive ("error occurs:" +:+ err) |},
   [Log LogRequest; Log (LogErrorOccurs ("error occurs:" +:+ err))]).
Proof.
  intros H Hb Hd. unfold LGTM. rewrite decide_False by (by intros ?).
  by rewrite Hb, Hd.
Qed.

Lemma LGTM_decoded resp st r body comment :
  Header_Get (Header r) "Content-Type" = "application/json" →
  Body r = Some body → json_Decode body = inr comment →
  LGTM privateToken json_Decode fmt_directive resp st r =
  ((checkLgtm privateToken resp st comment).1,
   {| wroteHeader := Some 200; written := "OK" |},
   Log LogRequest :: (checkLgtm privateToken resp st comment).2 ++ []).
Proof.
  intros H Hb Hd. unfold LGTM. rewrite decide_False by (by intros ?).
  rewrite Hb, Hd. by destruct (checkLgtm _ _ _ _).
Qed.

(** C7. A request whose [Content-Type] is [application/json], whose body
    is present and decodes is answered 200 with the body [OK], whatever
    the decoded event is; a request with another content type, with no
    body, or whose body fails to decode is answered 400 with the text
    [error occurs:] and the error, and leaves the state, the counter map
    with it, as it was. *)
Theorem LGTM_response resp st r :
  let out := LGTM privateToken json_Decode fmt_directive resp st r in
  let st' := out.1.1 in
  let w := out.1.2 in
  (Header_Get (Header r) "Content-Type" = "application/json" →
   ∀ body comment, Body r = Some body → json_Decode body = inr comment →
     wroteHeader w = Some 200 ∧ written w = "OK"
     ∧ st' = (checkLgtm privateToken resp st comment).1)
  ∧ (Header_Get (Header r) "Content-Type" ≠ "application/json" →
     wroteHeader w = Some 400
     ∧ written w = "error occurs:invalid content type"
     ∧ st' = st)
  ∧ (Header_Get (Header r) "Content-Type" = "application/json" →
     Body r = None →
     wroteHeader w = Some 400
     ∧ written w = "error occurs:invalid request body"
     ∧ st' = st)
  ∧ (Header_Get (Header r) "Content-Type" = "application/json" →
     ∀ body err, Body r = Some body → json_Decode body = inl err →
     wroteHeader w = Some 400
     ∧ written w = Sprintf0 fmt_directive ("error occurs:" +:+ err)
     ∧ st' = st).
Proof.
  simpl. split_and!.
  - intros H body comment Hb Hd. by rewrite (LGTM_decoded _ _ _ _ _ H Hb Hd).
  - intros H. by rewrite (LGTM_bad_content_type _ _ _ H).
  - intros H Hb. by rewrite (LGTM_no_body _ _ _ H Hb).
  - intros H body err Hb Hd. by rewrite (LGTM_decode_error _ _ _ _ _ H Hb Hd).
Qed.

(** C10. The content type is compared as a string: a request whose
    [Content-Type] is anything but [application/json], for one
    [application/json; charset=utf-8], is answered 400, leaves the state as
    it was and makes no merge call, whatever its body holds. *)
Theorem content_type_compared_exactly :
  (∀ resp st r,
     Header_Get (Header r) "Content-Type" ≠ "application/json" →
     let out := LGTM privateToken json_Decode fmt_directive resp st r in
     wroteHeader out.1.2 = Some 400
     ∧ lgtmCount out.1.1 = lgtmCount st
     ∧ merge_calls out.2 = [])
  ∧ (∀ resp st h body,
     Header_Get h "Content-Type" = "application/json; charset=utf-8" →
     let out := LGTM privateToken json_Decode fmt_directive resp st
                  {| Header := h; Body := body |} in
     wroteHeader out.1.2 = Some 400
     ∧ lgtmCount out.1.1 = lgtmCount st
     ∧ merge_calls out.2 = []).
Proof.
  split.
  - intros resp st r H. simpl. by rewrite (LGTM_bad_content_type _ _ _ H).
  - intros resp st h body H. simpl.
    rewrite LGTM_bad_content_type; [done|]. simpl. by rewrite H.
Qed.

End HookFacts.

(** ** Every interleaving counts every approval *)

Import Interleaving.

Lemma tally_insert f gs i g g' :
  gs !! i = Some g →
  (tally f (<[i := g']> gs) + f g = tally f gs + f g')%nat.
Proof.
  revert i. induction gs as [|x gs IH]; intros [|i] H; simplify_eq/=; [lia|].
  specialize (IH i H). lia.
Qed.

Lemma tally_lookup f gs i g : gs !! i = Some g → (f g ≤ tally f gs)%nat.
Proof.
  revert i. induction gs as [|x gs IH]; intros [|i] H; simplify_eq/=; [lia|].
  specialize (IH i H). lia.
Qed.

Lemma tally_two f gs i j g g' :
  i ≠ j → gs !! i = Some g → gs !! j = Some g' →
  (f g + f g' ≤ tally f gs)%nat.
Proof.
  revert i j. induction gs as [|x gs IH]; intros [|i] [|j] Hij Hi Hj;
    simplify_eq/=.
  - pose proof (tally_lookup f gs j g' Hj). lia.
  - pose proof (tally_lookup f gs i g Hi). lia.
  - assert (i ≠ j) as Hne by congruence. specialize (IH i j Hne Hi Hj). lia.
Qed.

Lemma tally_le_length f gs :
  (∀ g, f g ≤ 1)%nat → (tally f gs ≤ length gs)%nat.
Proof.
  intros Hf. induction gs as [|x gs IH]; simpl; [lia|].
  specialize (Hf x). lia.
Qed.

Lemma stored_le k g : (stored k g ≤ 1)%nat.
Proof.
  unfold stored. destruct (decide _); [|lia].
  destruct (pc g); try lia. destruct (decide _); lia.
Qed.

(** A step that leaves the counter map and the stored increments alone. *)
Lemma Inv_frame i sh gs c p sh' p' :
  Inv (sh, gs) →
  gs !! i = Some {| comment := c; pc := p |} →
  counter sh' = counter sh →
  (∀ k, stored k {| comment := c; pc := p' |}
        = stored k {| comment := c; pc := p |}) →
  ((if mutexLocked sh' then 1 else 0) + holding {| comment := c; pc := p |}
   = (if mutexLocked sh then 1 else 0) + holding {| comment := c; pc := p' |})%nat →
  (∀ v, p' = AtStore v → v = counter sh !! ID (MergeRequest c)) →
  (p' ≠ AtCheck → p' ≠ Finished → qualifying c) →
  Inv (sh', <[i := {| comment := c; pc := p' |}]> gs).
Proof.
  intros (Hmx & Hcnt & Hloc & Hq) Hi Hctr Hst Hhold Hv Hqual.
  unfold Inv in *. simpl in *. split_and!.
  - pose proof (tally_insert holding gs i _ {| comment := c; pc := p' |} Hi).
    lia.
  - intros k.
    pose proof (tally_insert (stored k) gs i _ {| comment := c; pc := p' |} Hi)
      as Hk.
    rewrite Hst in Hk.
    replace (tally (stored k) (<[i:={| comment := c; pc := p' |}]> gs))
      with (tally (stored k) gs) by lia.
    rewrite Hctr. apply Hcnt.
  - intros j g v Hj Hpc. rewrite Hctr.
    apply list_lookup_insert_Some in Hj as [(<- & <- & _)|(Hne & Hj)].
    + simpl in *. by apply Hv.
    + by eapply Hloc.
  - intros j g Hj.
    apply list_lookup_insert_Some in Hj as [(<- & <- & _)|(Hne & Hj)].
    + done.
    + by eapply Hq.
Qed.

Lemma sched_step_inv i sh gs cfg' :
  Z.of_nat (length gs) ≤ MaxInt →
  Inv (sh, gs) → sched_step i (sh, gs) = Some cfg' → Inv cfg'.
Proof.
  intros Hlen HI Hstep.
  unfold sched_step in Hstep. simpl in *.
  destruct (gs !! i) as [[c p]|] eqn:Hi; [|done]. simpl in Hstep.
  pose proof HI as (Hmx & Hcnt & Hloc & Hq). simpl in *.
  pose proof (tally_lookup holding gs i _ Hi) as Hheld.
  assert (Hqual : p ≠ AtCheck → p ≠ Finished → qualifying c)
    by (intros; by eapply (Hq i {| comment := c; pc := p |})).
  destruct p as [| | |v|b|b|b|]; simpl in Hstep.
  - (* the three tests *)
    injection Hstep as <-. apply (Inv_frame i sh gs c AtCheck); try done.
    + intros k. unfold stored. simpl. by repeat destruct (decide _).
    + unfold holding. simpl. by destruct (decide _).
    + intros v. by destruct (decide _).
    + by destruct (decide _).
  - (* Lock *)
    destruct (mutexLocked sh) eqn:Hl; [done|]. injection Hstep as <-.
    apply (Inv_frame i sh gs c AtLock); try done.
    + by rewrite Hl.
    + intros _ _. by apply Hqual.
  - (* the lookup *)
    injection Hstep as <-. apply (Inv_frame i sh gs c AtLookup); try done.
    + by intros v [= <-].
    + intros _ _. by apply Hqual.
  - (* the store *)
    set (id := ID (MergeRequest c)) in *.
    set (g' b := {| comment := c; pc := AtUnlock b |}).
    assert (Hv : v = counter sh !! id) by (by eapply (Hloc i _ v Hi)).
    assert (Hs0 : ∀ k, stored k {| comment := c; pc := AtStore v |} = 0%nat).
    { intros k. unfold stored. simpl. by destruct (decide _). }
    assert (Hs1 : ∀ k b, stored k (g' b) = if decide (id = k) then 1%nat else 0%nat).
    { done. }
    pose proof (tally_insert (stored id) gs i _ (g' true) Hi) as Hn.
    rewrite Hs0, Hs1, decide_True in Hn by done.
    assert (Hnew : ∃ b,
      cfg' = ({| mutexLocked := mutexLocked sh;
                 counter := <[id := Z.of_nat (tally (stored id) gs) + 1]> (counter sh) |},
              <[i := g' b]> gs)).
    { rewrite Hcnt in Hv. destruct (decide (tally (stored id) gs = 0%nat)) as [H0|H0].
      - subst v. injection Hstep as <-. exists false. by rewrite H0.
      - subst v. injection Hstep as <-. eexists.
        rewrite int_add_succ; [done|].
        pose proof (tally_le_length (stored id) (<[i := g' true]> gs) (stored_le id)) as Hle.
        rewrite length_insert in Hle.
        unfold MinInt, intSize. lia. }
    destruct Hnew as (b & ->). clear Hstep.
    unfold Inv. simpl. split_and!.
    + pose proof (tally_insert holding gs i _ (g' b) Hi) as Hh.
      change (holding (g' b)) with 1%nat in Hh.
      change (holding {| comment := c; pc := AtStore v |}) with 1%nat in Hh.
      lia.
    + intros k.
      pose proof (tally_insert (stored k) gs i _ (g' b) Hi) as Hk.
      rewrite Hs0, Hs1 in Hk.
      destruct (decide (id = k)) as [<-|Hne].
      * rewrite lookup_insert_eq.
        rewrite decide_False by lia. f_equal. lia.
      * rewrite lookup_insert_ne by done.
        replace (tally (stored k) (<[i:=g' b]> gs))
          with (tally (stored k) gs) by lia.
        apply Hcnt.
    + intros j g2 v2 Hj Hpc.
      apply list_lookup_insert_Some in Hj as [(<- & <- & _)|(Hne & Hj)]; [done|].
      exfalso.
      pose proof (tally_two holding gs i j _ _ Hne Hi Hj) as H2.
      change (holding {| comment := c; pc := AtStore v |}) with 1%nat in H2.
      assert (holding g2 = 1%nat) as Hg2 by (unfold holding; by rewrite Hpc).
      destruct (mutexLocked sh); lia.
    + intros j g2 Hj.
      apply list_lookup_insert_Some in Hj as [(<- & <- & _)|(Hne & Hj)].
      * intros _ _. by apply Hqual.
      * by eapply Hq.
  - (* Unlock *)
    injection Hstep as <-.
    apply (Inv_frame i sh gs c (AtUnlock b)); try done.
    + simpl. unfold holding in *. simpl in *.
      destruct (mutexLocked sh); [done|lia].
    + intros _ _. by apply Hqual.
  - (* the log line *)
    injection Hstep as <-. apply (Inv_frame i sh gs c (AtLog b)); try done.
    intros _ _. by apply Hqual.
  - (* the merge call *)
    injection Hstep as <-. apply (Inv_frame i sh gs c (AtMerge b)); try done.
    intros k. unfold stored. simpl. destruct (decide _); [|done].
    by rewrite decide_True by (by apply Hqual).
  - done.
Qed.

Lemma tally_spawn f evs :
  (∀ c, f {| comment := c; pc := AtCheck |} = 0%nat) →
  tally f ((λ c, {| comment := c; pc := AtCheck |}) <$> evs) = 0%nat.
Proof.
  intros Hf. induction evs as [|c evs IH]; [done|].
  rewrite fmap_cons. simpl. by rewrite Hf, IH.
Qed.

Lemma Inv_spawn evs : Inv (spawn evs).
Proof.
  unfold Inv, spawn. simpl. split_and!.
  - by apply tally_spawn.
  - intros k. rewrite tally_spawn, lookup_empty; [done|].
    intros c. unfold stored. simpl. by destruct (decide _).
  - intros i g v Hi Hpc. apply list_lookup_fmap_Some in Hi as (c & -> & _).
    done.
  - intros i g Hi Hpc. apply list_lookup_fmap_Some in Hi as (c & -> & _).
    done.
Qed.

Lemma sched_step_comments i cfg cfg' :
  sched_step i cfg = Some cfg' → comment <$> cfg'.2 = comment <$> cfg.2.
Proof.
  unfold sched_step. destruct (cfg.2 !! i) as [g|] eqn:Hi; [|done].
  destruct (advance _ _ _) as [[sh' p']|]; [|done]. intros [= <-]. simpl.
  rewrite list_fmap_insert. simpl. apply list_insert_id.
  by rewrite list_lookup_fmap, Hi.
Qed.

Lemma exec_inv sched : ∀ cfg cfg',
  Z.of_nat (length cfg.2) ≤ MaxInt → Inv cfg → exec sched cfg = Some cfg' →
  Inv cfg' ∧ comment <$> cfg'.2 = comment <$> cfg.2.
Proof.
  induction sched as [|i sched IH]; intros cfg cfg' Hlen HI Hex; simpl in Hex.
  { by injection Hex as <-. }
  destruct (sched_step i cfg) as [cfg1|] eqn:Hstep; [|done].
  pose proof (sched_step_comments _ _ _ Hstep) as Hc.
  assert (length cfg1.2 = length cfg.2) as Hl.
  { by rewrite <-(length_fmap comment cfg1.2), Hc, length_fmap. }
  destruct cfg as [sh gs].
  destruct (IH cfg1 cfg') as [HI' Hc']; [by rewrite Hl| |done|].
  - by eapply sched_step_inv.
  - split; [done|]. by rewrite Hc'.
Qed.

Lemma tally_finished k gs :
  Forall (λ g, pc g = Finished) gs →
  tally (stored k) gs = approvals k (comment <$> gs).
Proof.
  unfold approvals. induction 1 as [|g gs Hg _ IH]; [done|].
  simpl. rewrite filter_cons, IH. unfold stored. rewrite Hg.
  destruct (decide (ID _ = k)) as [Hk|Hk].
  - destruct (decide (qualifying (comment g))) as [Hq|Hq].
    + by rewrite decide_True.
    + by rewrite decide_False by (by intros [? _]).
  - by rewrite decide_False by (by intros [_ ?]).
Qed.

(** A goroutine that runs alone does what [checkLgtm] does to the map. *)
Lemma solo_run_is_checkLgtm tok resp st c :
  exec (replicate (if decide (qualifying c) then 7 else 1)%nat 0%nat)
       ({| mutexLocked := false; counter := lgtmCount st |},
        [{| comment := c; pc := AtCheck |}])
  = Some ({| mutexLocked := false;
             counter := lgtmCount (checkLgtm tok resp st c).1 |},
          [{| comment := c; pc := Finished |}]).
Proof.
  rewrite lgtmCount_checkLgtm.
  destruct (decide (qualifying c)) as [Hq|Hq]; simpl.
  - unfold sched_step. simpl. rewrite decide_True by done. simpl.
    unfold countLgtm.
    by destruct (lgtmCount st !! ID (MergeRequest c)).
  - unfold sched_step. simpl. by rewrite decide_False.
Qed.

(** C9. Two approvals of merge request 42, handled concurrently. The
    first goroutine runs up to its log line and the second up to its
    store. In the configuration reached, the first is about to read
    [lgtmCount] for the log line (line 146), outside the critical section,
    while the second holds the mutex and is about to write [lgtmCount]
    (line 140); the counter stands at 1. *)
Theorem log_read_races_with_second_store :
  exec [0; 0; 0; 0; 0; 1; 1; 1]%nat (spawn [lgtm42; lgtm42])
  = Some ({| mutexLocked := true; counter := {[ 42 := 1 ]} |},
          [{| comment := lgtm42; pc := AtLog false |};
           {| comment := lgtm42; pc := AtStore (Some 1) |}]).
Proof. by vm_compute. Qed.

(** ** How the URL of a merge call is printed *)

Lemma string_app_nil_r (s : string) : s +:+ EmptyString = s.
Proof.
  induction s as [|c s IH]; [done|].
  change (String c (s +:+ EmptyString) = String c s). by rewrite IH.
Qed.

Lemma bytes_all_app P a b :
  bytes_all P (a +:+ b) = bytes_all P a && bytes_all P b.
Proof.
  induction a as [|c a IH]; [done|].
  change (P c && bytes_all P (a +:+ b) = P c && bytes_all P a && bytes_all P b).
  rewrite IH. by destruct (P c).
Qed.

Lemma pretty_N_go_bytes_all P x :
  (∀ d, P (pretty_N_char d) = true) →
  ∀ s, bytes_all P s = true → bytes_all P (pretty_N_go x s) = true.
Proof.
  intros Hd. induction (N.lt_wf_0 x) as [x _ IH]; intros s Hs.
  assert (x = 0 ∨ 0 < x)%N as [->|Hx] by lia.
  - by rewrite pretty_N_go_0.
  - rewrite pretty_N_go_step by done. apply IH.
    + by apply N.div_lt.
    + simpl. by rewrite Hd, Hs.
Qed.

(** What [%d] prints is made of digits and a minus sign. *)
Lemma pretty_Z_bytes_all P (z : Z) :
  (∀ d, P (pretty_N_char d) = true) → P "-"%char = true →
  bytes_all P (pretty z) = true.
Proof.
  intros Hd Hm.
  assert (∀ x : positive, bytes_all P (pretty x) = true) as Hp.
  { intros x. unfold pretty, pretty_positive, pretty, pretty_N.
    rewrite decide_False by done. by apply pretty_N_go_bytes_all. }
  destruct z as [|x|x]; [|apply Hp|].
  - pose proof (Hd 0%N) as H0. change (P "0"%char && true = true).
    by rewrite andb_true_r.
  - unfold pretty, pretty_Z.
    change ("-" +:+ pretty x) with (String "-" (pretty x)).
    simpl. by rewrite Hm, Hp.
Qed.

Lemma pretty_Z_slashfree (z : Z) : slashfree (pretty z) = true.
Proof.
  apply pretty_Z_bytes_all; [|done].
  intros d. unfold pretty_N_char. by repeat case_match.
Qed.

Lemma pretty_Z_unreserved (z : Z) : unreserved (pretty z) = true.
Proof.
  apply pretty_Z_bytes_all; [|done].
  intros d. unfold pretty_N_char. by repeat case_match.
Qed.

(** Two strings cut at their first slash. *)
Lemma cut_at_slash s : ∀ s' t t',
  slashfree s = true → slashfree s' = true →
  s +:+ String "/" t = s' +:+ String "/" t' → s = s' ∧ t = t'.
Proof.
  unfold slashfree.
  induction s as [|c s IH]; intros [|c' s'] t t' Hs Hs' H.
  - by injection H as ->.
  - injection H as <- _. simpl in Hs'. done.
  - injection H as -> _. simpl in Hs. done.
  - injection H as -> H. simpl in Hs, Hs'.
    apply andb_prop in Hs as [_ Hs]. apply andb_prop in Hs' as [_ Hs'].
    destruct (IH _ _ _ Hs Hs' H) as [-> ->]. done.
Qed.

(** The path names its project and merge request, also with more text
    after it. *)
Lemma mergePath_app_inj p m p' m' t t' :
  mergePath p m +:+ t = mergePath p' m' +:+ t' → p = p' ∧ m = m'.
Proof.
  unfold mergePath. rewrite !string_app_assoc. intros H.
  apply (inj (String.app "/api/v3/projects/")) in H.
  change ("/merge_requests/" +:+ ?x) with (String "/" ("merge_requests/" +:+ x)) in H.
  apply cut_at_slash in H as [Hp H]; [|apply pretty_Z_slashfree..].
  apply (inj pretty) in Hp.
  apply (inj (String.app "merge_requests/")) in H.
  change ("/merge" +:+ ?x) with (String "/" ("merge" +:+ x)) in H.
  apply cut_at_slash in H as [Hm _]; [|apply pretty_Z_slashfree..].
  by apply (inj pretty) in Hm.
Qed.

Lemma mergePath_inj p m p' m' :
  mergePath p m = mergePath p' m' → p = p' ∧ m = m'.
Proof.
  intros H. apply (mergePath_app_inj p m p' m' EmptyString EmptyString).
  by rewrite !string_app_nil_r.
Qed.

Lemma escape_unreserved s : unreserved s = true → escape s = s.
Proof.
  unfold unreserved. induction s as [|c s IH]; [done|].
  simpl. intros H. apply andb_prop in H as [Hc Hs].
  apply negb_true_iff in Hc. by rewrite Hc, IH.
Qed.

(** The path of a merge call needs no escape. *)
Lemma mergePath_unreserved p m : unreserved (mergePath p m) = true.
Proof.
  unfold unreserved, mergePath. rewrite !bytes_all_app.
  fold (unreserved (pretty p)). fold (unreserved (pretty m)).
  by rewrite !pretty_Z_unreserved.
Qed.

Lemma mergePath_slash p m :
  mergePath p m = String "/" ("api/v3/projects/" +:+ pretty p
                              +:+ "/merge_requests/" +:+ pretty m +:+ "/merge").
Proof. done. Qed.

Lemma EscapedPath_mergePath u p m :
  RawPath u = EmptyString →
  EscapedPath (withPath u (mergePath p m)) = mergePath p m.
Proof.
  intros Hr. unfold EscapedPath.
  change (RawPath (withPath u (mergePath p m))) with (RawPath u).
  change (Path (withPath u (mergePath p m))) with (mergePath p m).
  rewrite Hr, (bool_decide_eq_false_2 (EmptyString ≠ EmptyString)) by (by intros H).
  cbn [andb].
  rewrite decide_False by (by rewrite mergePath_slash).
  apply escape_unreserved, mergePath_unreserved.
Qed.

(** With an opaque part the URL is printed without any path. *)
Lemma mergeURL_opaque u p m :
  Opaque u ≠ EmptyString →
  mergeURL u p m
  = (if decide (Scheme u ≠ EmptyString) then Scheme u +:+ ":" else EmptyString)
    +:+ Opaque u +:+ query u +:+ fragment u.
Proof.
  intros Ho. unfold mergeURL, URL_String. simpl.
  by rewrite (decide_True (P := Opaque u ≠ EmptyString)) by done.
Qed.

(** Without one, the path of the call stands between what comes before
    the path and what comes after it. *)
Lemma mergeURL_hier u :
  Opaque u = EmptyString → RawPath u = EmptyString →
  ∃ pre, ∀ p m, mergeURL u p m = pre +:+ mergePath p m +:+ query u +:+ fragment u.
Proof.
  intros Ho Hr.
  exists ((if decide (Scheme u ≠ EmptyString) then Scheme u +:+ ":" else EmptyString)
          +:+ (if decide (Scheme u ≠ EmptyString ∨ Host u ≠ EmptyString ∨ User u ≠ None)
               then
                 if OmitHost u && bool_decide (Host u = EmptyString)
                    && bool_decide (User u = None)
                 then EmptyString
                 else "//" +:+ userinfo u +:+ Host u
               else EmptyString)).
  intros p m. unfold mergeURL, URL_String.
  rewrite (EscapedPath_mergePath u p m Hr). simpl.
  rewrite (decide_False (P := Opaque u ≠ EmptyString)) by (intros H; by apply H).
  rewrite (decide_True (P := Host u ≠ EmptyString ∨ mergePath p m ≠ EmptyString ∨ _))
    by (right; left; by rewrite mergePath_slash).
  match goal with
  | |- context [decide (?x = EmptyString)] => destruct (decide (x = EmptyString))
  end; change (EmptyString +:+ ?x) with x; by rewrite !string_app_assoc.
Qed.

(** The usual case: a scheme and a host. *)
Lemma mergeURL_base u p m :
  Opaque u = EmptyString → RawPath u = EmptyString →
  Scheme u ≠ EmptyString → Host u ≠ EmptyString →
  mergeURL u p m
  = Scheme u +:+ "://" +:+ userinfo u +:+ Host u +:+ mergePath p m
    +:+ query u +:+ fragment u.
Proof.
  intros Ho Hr Hs Hh. unfold mergeURL, URL_String.
  rewrite (EscapedPath_mergePath u p m Hr). simpl.
  rewrite (decide_False (P := Opaque u ≠ EmptyString)) by (intros H; by apply H).
  rewrite (decide_True (P := Scheme u ≠ EmptyString)) by done.
  rewrite (decide_True (P := Scheme u ≠ EmptyString ∨ _)) by (by left).
  rewrite (bool_decide_eq_false_2 (Host u = EmptyString)) by done.
  rewrite andb_false_r. simpl.
  rewrite (decide_True (P := Host u ≠ EmptyString ∨ _)) by (by left).
  match goal with
  | |- context [decide (?x = EmptyString)] => destruct (decide (x = EmptyString))
  end; change (EmptyString +:+ ?x) with x; by rewrite !string_app_assoc.
Qed.

Lemma mergeURL_inj u p m p' m' :
  Opaque u = EmptyString → RawPath u = EmptyString →
  mergeURL u p m = mergeURL u p' m' → p = p' ∧ m = m'.
Proof.
  intros Ho Hr. destruct (mergeURL_hier u Ho Hr) as [pre Hpre]. rewrite !Hpre.
  intros H. apply (inj (String.app pre)) in H.
  by apply mergePath_app_inj in H.
Qed.

(** ** Further facts about the handler, the counter and the merge call *)

Section MoreFacts.
Variable privateToken : string.

Lemma sent_app t1 t2 : sent (t1 ++ t2) = sent t1 ++ sent t2.
Proof. induction t1 as [|[] t1 IH]; simpl; [done| | |]; by rewrite ?IH. Qed.

Lemma logged_app t1 t2 : logged (t1 ++ t2) = logged t1 ++ logged t2.
Proof. induction t1 as [|[] t1 IH]; simpl; [done| | |]; by rewrite ?IH. Qed.

(** What one event does, on either path. *)
Lemma checkLgtm_cases resp st c :
  (checkLgtm privateToken resp st c = (st, [Log (LogDebugComment c)])
   ∧ merge_calls (checkLgtm privateToken resp st c).2 = [])
  ∨ (∃ m', checkLgtm privateToken resp st c =
       ({| lgtmCount := m'; glURL := glURL st |},
        [Log (LogDebugComment c); Log (LogCounter m')]))
  ∨ (∃ m', checkLgtm privateToken resp st c =
       let out := acceptMergeRequest privateToken resp
                    {| lgtmCount := m'; glURL := glURL st |} (ProjectID c)
                    (ID (MergeRequest c))
                    (ForceRemoveSourceBranch (MergeParams (MergeRequest c))) in
       (out.1, [Log (LogDebugComment c); Log (LogCounter m'); Log LogCanBeMerged]
               ++ out.2)).
Proof.
  unfold checkLgtm.
  destruct (decide _); [by left|].
  destruct (decide _); [by left|].
  destruct (decide _); [by left|].
  destruct (countLgtm _ _) as [m' fl]. right.
  destruct (fl && _); [right|left]; by exists m'.
Qed.

Lemma checkLgtm_follows u resp st c :
  (∀ path, withPath (glURL st) path = withPath u path) →
  follows privateToken u (glURL st) (checkLgtm privateToken resp st c).
Proof.
  intros Hu. unfold follows.
  destruct (checkLgtm_cases resp st c) as [[-> _]|[(m' & ->)|(m' & ->)]];
    simpl; [by split_and!..|].
  rewrite sent_outcome_log. unfold mergeURL. rewrite Hu.
  assert (merge_calls (match resp with
            | DoError msg => [Log (LogExecuteError msg)]
            | DoResponse code =>
                if decide (code = StatusOK) then [Log LogAccepted]
                else if decide (code = StatusMethodNotAllowed) then [Log LogConflict]
                else if decide (code = StatusNotAcceptable) then [Log LogAlreadyMerged]
                else []
            end) = []) as ->.
  { destruct resp as [msg|code]; [done|]. by repeat destruct (decide _). }
  split_and!; try done. by repeat constructor.
Qed.

Lemma run_follows u evs : ∀ st,
  (∀ path, withPath (glURL st) path = withPath u path) →
  follows privateToken u (glURL st) (run privateToken st evs).
Proof.
  induction evs as [|[resp c] rest IH]; intros st Hu.
  { unfold follows. simpl. by split_and!. }
  destruct (checkLgtm_follows u resp st c Hu) as (Hp1 & Hu1 & Hf1).
  assert (∀ path, withPath (glURL (checkLgtm privateToken resp st c).1) path
                  = withPath u path) as Hu'.
  { intros path. rewrite Hp1. by destruct (last _). }
  destruct (IH _ Hu') as (Hp2 & Hu2 & Hf2).
  unfold follows.
  rewrite run_cons_state, run_cons_trace, merge_calls_app, sent_app, !fmap_app.
  split_and!.
  - rewrite Hp2, Hp1.
    destruct (merge_calls (run _ _ rest).2) as [|x l] eqn:Hl using rev_ind.
    + by rewrite app_nil_r.
    + by rewrite app_assoc, !last_snoc.
  - by rewrite Hu1, Hu2.
  - by apply Forall_app.
Qed.

(** X1. In a run from start-up every call of [acceptMergeRequest] sends one
    [PUT], in the order of the calls, to the URL that [String] prints for
    the configured URL with the path of the call's own project and merge
    request in it, however many calls came before; each request carries the
    token under [Private-Token], the same body, and no [Content-Type] header
    (the key written is [Conntent-Type]). Afterwards the shared URL is the
    configured one with the path of the last call. For a configured URL
    with a scheme and a host, no opaque part and a path in its default
    encoding, the URL of a call is [scheme://], the user information, the
    host, the path of the call, then the configured query and fragment.
    For a configured URL with an opaque part (as [localhost:8080] has),
    it is the scheme, the opaque part, the query and the fragment, with no
    path, the same for every call. *)
Theorem requests_follow_calls u evs :
  let out := run privateToken (initState u) evs in
  ReqURL <$> sent out.2 = (λ x, mergeURL u x.1.1 x.1.2) <$> merge_calls out.2
  ∧ Forall (λ r, Method r = "PUT"
                 ∧ ReqBody r = json_Marshal [("should_remove_source_branch", "true")]
                 ∧ header_value (ReqHeader r) "Private-Token" = Some privateToken
                 ∧ header_value (ReqHeader r) "Content-Type" = None)
      (sent out.2)
  ∧ glURL out.1 =
      match last (merge_calls out.2) with
      | Some x => withPath u (mergePath x.1.1 x.1.2)
      | None => u
      end
  ∧ (Opaque u = EmptyString → RawPath u = EmptyString →
     Scheme u ≠ EmptyString → Host u ≠ EmptyString →
     ∀ p m, mergeURL u p m
            = Scheme u +:+ "://" +:+ userinfo u +:+ Host u +:+ mergePath p m
              +:+ query u +:+ fragment u)
  ∧ (Opaque u ≠ EmptyString →
     ∀ p m, mergeURL u p m
            = (if decide (Scheme u ≠ EmptyString) then Scheme u +:+ ":"
               else EmptyString)
              +:+ Opaque u +:+ query u +:+ fragment u).
Proof.
  destruct (run_follows u evs (initState u) (λ _, eq_refl)) as (Hp & Hu & Hf).
  simpl. split_and!; try done.
  - intros Ho Hr Hs Hh p m. by apply mergeURL_base.
  - intros Ho p m. by apply mergeURL_opaque.
Qed.

(** X2. One call of [acceptMergeRequest] sends the request once and logs at
    most one line about its outcome. It logs none exactly when the remote
    answered with a status other than 200, 405 and 406; a transport error
    is logged with its text. Neither the counter map nor the scheme and
    host of the shared URL change. *)
Theorem merge_outcome_logged_unless_unclassified resp st p m b :
  let out := acceptMergeRequest privateToken resp st p m b in
  length (sent out.2) = 1%nat
  ∧ (length (logged out.2) ≤ 1)%nat
  ∧ (logged out.2 = [] ↔
     ∃ code, resp = DoResponse code ∧ code ≠ 200 ∧ code ≠ 405 ∧ code ≠ 406)
  ∧ (∀ msg, resp = DoError msg → logged out.2 = [LogExecuteError msg])
  ∧ lgtmCount out.1 = lgtmCount st.
Proof.
  destruct (acceptMergeRequest_outcome privateToken resp st p m b) as [Hs Hl].
  simpl in *. rewrite Hl. split_and!; try done.
  - destruct resp as [msg|code]; simpl; [lia|].
    repeat destruct (decide _); simpl; lia.
  - split.
    + destruct resp as [msg|code]; [done|]. intros H. exists code.
      by repeat destruct (decide _).
    + intros (code & -> & H1 & H2 & H3). by rewrite !decide_False.
  - by intros msg ->.
Qed.

(** ** The handler and the merge call *)

Variable json_Decode : string -> string + Comment.
Variable fmt_directive : string -> string.

Lemma checkLgtm_state_any_outcome resp1 resp2 st c :
  (checkLgtm privateToken resp1 st c).1 = (checkLgtm privateToken resp2 st c).1
  ∧ merge_calls (checkLgtm privateToken resp1 st c).2
    = merge_calls (checkLgtm privateToken resp2 st c).2
  ∧ sent (checkLgtm privateToken resp1 st c).2
    = sent (checkLgtm privateToken resp2 st c).2.
Proof.
  rewrite !merge_calls_checkLgtm. unfold checkLgtm.
  repeat (destruct (decide _); [done|]).
  destruct (countLgtm _ _) as [m' fl].
  destruct (fl && _); [|done]. simpl. by rewrite !sent_outcome_log.
Qed.

(** X3. The answer of the handler does not wait on the merge: whatever
    comes back from the remote (any status, or a transport error), the
    response, the state, the calls made and the requests sent are the
    same. Only log lines differ. *)
Theorem LGTM_ignores_merge_outcome resp1 resp2 st r :
  let out1 := LGTM privateToken json_Decode fmt_directive resp1 st r in
  let out2 := LGTM privateToken json_Decode fmt_directive resp2 st r in
  out1.1 = out2.1
  ∧ merge_calls out1.2 = merge_calls out2.2
  ∧ sent out1.2 = sent out2.2.
Proof.
  simpl. unfold LGTM.
  destruct (decide _); [done|].
  destruct (Body r) as [body|]; [|done].
  destruct (json_Decode body) as [err|c]; [done|].
  destruct (checkLgtm_state_any_outcome resp1 resp2 st c) as (H1 & H2 & H3).
  destruct (checkLgtm privateToken resp1 st c) as [s1 t1].
  destruct (checkLgtm privateToken resp2 st c) as [s2 t2].
  simpl in *. subst s2.
  rewrite !merge_calls_app, !sent_app, H2, H3. by simpl.
Qed.

(** X4. Every request is answered with 200 or with 400, never with another
    status. 200 comes with the body [OK]. 400 means that nothing was done:
    the state is as before, no merge call was made and no request sent,
    and the error was logged. *)
Theorem LGTM_answers_200_or_400 resp st r :
  let out := LGTM privateToken json_Decode fmt_directive resp st r in
  (wroteHeader out.1.2 = Some 200 ∧ written out.1.2 = "OK")
  ∨ (wroteHeader out.1.2 = Some 400
     ∧ out.1.1 = st ∧ merge_calls out.2 = [] ∧ sent out.2 = []
     ∧ ∃ e, logged out.2 = [LogRequest; LogErrorOccurs ("error occurs:" +:+ e)]).
Proof.
  simpl.
  destruct (decide (Header_Get (Header r) "Content-Type" = "application/json"))
    as [Hct|Hct].
  - destruct (Body r) as [body|] eqn:Hb.
    + destruct (json_Decode body) as [err|c] eqn:Hd.
      * right. rewrite (LGTM_decode_error _ _ _ _ _ _ _ _ Hct Hb Hd). simpl.
        split_and!; try done. by exists err.
      * left. rewrite (LGTM_decoded _ _ _ _ _ _ _ _ Hct Hb Hd). simpl.
        by split.
    + right. rewrite (LGTM_no_body _ _ _ _ _ _ Hct Hb). simpl.
      split_and!; try done. by exists ErrInvalidRequest.
  - right. rewrite (LGTM_bad_content_type _ _ _ _ _ _ Hct). simpl.
    split_and!; try done. by exists ErrInvalidContentType.
Qed.

(** What an event does to the entry and the calls of its own merge request
    depends on that entry only. *)
Lemma checkLgtm_local resp resp' st st' c :
  lgtmCount st !! ID (MergeRequest c) = lgtmCount st' !! ID (MergeRequest c) →
  lgtmCount (checkLgtm privateToken resp st c).1 !! ID (MergeRequest c)
  = lgtmCount (checkLgtm privateToken resp' st' c).1 !! ID (MergeRequest c)
  ∧ merge_calls (checkLgtm privateToken resp st c).2
    = merge_calls (checkLgtm privateToken resp' st' c).2.
Proof.
  intros H. rewrite !checkLgtm_lookup, !merge_calls_checkLgtm.
  unfold count_of, countLgtm. rewrite H.
  by destruct (lgtmCount st' !! ID (MergeRequest c)).
Qed.

Lemma calls_of_other resp st c k :
  ID (MergeRequest c) ≠ k →
  filter (λ x, x.1.2 = k) (merge_calls (checkLgtm privateToken resp st c).2) = [].
Proof.
  intros Hk. rewrite merge_calls_checkLgtm.
  destruct (decide _); [|done]. destruct (_ && _); [|done].
  rewrite filter_cons. simpl. by rewrite decide_False.
Qed.

Lemma run_local k evs : ∀ st st',
  lgtmCount st !! k = lgtmCount st' !! k →
  let own := filter (λ e, ID (MergeRequest e.2) = k) evs in
  lgtmCount (run privateToken st evs).1 !! k
  = lgtmCount (run privateToken st' own).1 !! k
  ∧ filter (λ x, x.1.2 = k) (merge_calls (run privateToken st evs).2)
    = filter (λ x, x.1.2 = k) (merge_calls (run privateToken st' own).2).
Proof.
  induction evs as [|[resp c] rest IH]; intros st st' H; [done|].
  cbn zeta in *. rewrite filter_cons. cbn [snd].
  destruct (decide (ID (MergeRequest c) = k)) as [<-|Hk].
  - destruct (checkLgtm_local resp resp st st' c H) as [H1 H2].
    destruct (IH _ _ H1) as [IH1 IH2].
    rewrite !run_cons_state, !run_cons_trace, !merge_calls_app, !filter_app.
    by rewrite IH1, IH2, H2.
  - rewrite run_cons_state, run_cons_trace, merge_calls_app, filter_app.
    rewrite calls_of_other by done. rewrite app_nil_l.
    apply IH. rewrite checkLgtm_lookup.
    by rewrite decide_False by (by intros [_ ?]).
Qed.

(** X5. Merge requests do not interfere: the count of a merge request and
    the merge calls made for it, in their order, are the same as if the
    events for other merge requests had never arrived. *)
Theorem merge_requests_do_not_interfere u evs k :
  let own := filter (λ e, ID (MergeRequest e.2) = k) evs in
  lgtmCount (run privateToken (initState u) evs).1 !! k
  = lgtmCount (run privateToken (initState u) own).1 !! k
  ∧ filter (λ x, x.1.2 = k) (merge_calls (run privateToken (initState u) evs).2)
    = merge_calls (run privateToken (initState u) own).2.
Proof.
  destruct (run_local k evs (initState u) (initState u) eq_refl) as [H1 H2].
  simpl. split; [done|]. rewrite H2.
  clear H1 H2. generalize (initState u).
  induction evs as [|[resp c] rest IH]; intros st; [done|].
  rewrite filter_cons. simpl.
  destruct (decide (ID (MergeRequest c) = k)) as [Hk|Hk]; [|apply IH].
  rewrite run_cons_trace, merge_calls_app, filter_app, IH. f_equal.
  rewrite merge_calls_checkLgtm.
  destruct (decide _); [|done]. destruct (_ && _); [|done].
  rewrite filter_cons. simpl. by rewrite decide_True.
Qed.

(** Deliveries of one approving comment when its counter stands at [j]. *)
Lemma run_repeated_from resp c n : ∀ st j,
  qualifying c →
  MergeStatus (MergeRequest c) = StatusCanbeMerged →
  lgtmCount st !! ID (MergeRequest c) = Some j →
  1 ≤ j → j + Z.of_nat n ≤ MaxInt →
  merge_calls (run privateToken st (replicate n (resp, c))).2
  = replicate n (ProjectID c, ID (MergeRequest c),
                 ForceRemoveSourceBranch (MergeParams (MergeRequest c)))
  ∧ lgtmCount (run privateToken st (replicate n (resp, c))).1 !! ID (MergeRequest c)
    = Some (j + Z.of_nat n).
Proof.
  induction n as [|n IH]; intros st j Hq Hs Hj H1 Hn.
  { simpl. split; [done|]. rewrite Hj. f_equal. lia. }
  simpl replicate.
  rewrite run_cons_state, run_cons_trace, merge_calls_app.
  assert (lgtmCount (checkLgtm privateToken resp st c).1 !! ID (MergeRequest c)
          = Some (j + 1)) as Hj'.
  { rewrite checkLgtm_lookup, decide_True by done.
    unfold count_of. rewrite Hj. simpl. f_equal. apply wrap_small.
    unfold MinInt, intSize. lia. }
  destruct (IH _ (j + 1) Hq Hs Hj') as [IH1 IH2]; [lia..|].
  rewrite IH1, IH2. split; [|f_equal; lia].
  rewrite merge_calls_checkLgtm, decide_True by done.
  unfold countLgtm. rewrite Hj. simpl.
  rewrite int_add_succ by (unfold MinInt, intSize; lia).
  rewrite bool_decide_eq_true_2 by (unfold ValidLGTMCount; lia).
  by rewrite bool_decide_eq_true_2.
Qed.

(** X6. Nothing tells two deliveries or two authors apart: the same
    approving comment with [can_be_merged], delivered [n] times from
    start-up, makes [n - 1] merge calls, all for its project and merge
    request, and leaves the count at [n]. Two deliveries suffice for the
    merge. *)
Theorem repeated_delivery_reaches_quorum u resp c n :
  qualifying c →
  MergeStatus (MergeRequest c) = "can_be_merged" →
  Z.of_nat n ≤ MaxInt →
  let out := run privateToken (initState u) (replicate n (resp, c)) in
  merge_calls out.2
  = replicate (n - 1) (ProjectID c, ID (MergeRequest c),
                       ForceRemoveSourceBranch (MergeParams (MergeRequest c)))
  ∧ count_of (lgtmCount out.1) (ID (MergeRequest c)) = Z.of_nat n.
Proof.
  intros Hq Hs Hn. simpl. destruct n as [|n]; [done|].
  simpl replicate. rewrite run_cons_state, run_cons_trace, merge_calls_app.
  assert (lgtmCount (checkLgtm privateToken resp (initState u) c).1
            !! ID (MergeRequest c) = Some 1) as H1.
  { by rewrite checkLgtm_lookup, decide_True. }
  destruct (run_repeated_from resp c n _ 1 Hq Hs H1) as [Hc Hl]; [lia..|].
  unfold count_of. rewrite Hc, Hl. simpl. split; [|lia].
  rewrite merge_calls_checkLgtm, decide_True by done.
  replace (n - 0)%nat with n by lia. done.
Qed.

(** X7. The counter is keyed by [merge_request.id] alone, and only the
    status of the event at hand decides on the merge: two qualifying
    events with the same id reach the quorum whatever their projects and
    whatever the [merge_status] of the first; the merge is then called iff
    the second carries [can_be_merged], for the second's project. *)
Theorem quorum_ignores_project_and_earlier_status u resp1 resp2 c1 c2 :
  qualifying c1 → qualifying c2 →
  ID (MergeRequest c1) = ID (MergeRequest c2) →
  let out := run privateToken (initState u) [(resp1, c1); (resp2, c2)] in
  count_of (lgtmCount out.1) (ID (MergeRequest c2)) = 2
  ∧ merge_calls out.2 =
    if decide (MergeStatus (MergeRequest c2) = "can_be_merged")
    then [(ProjectID c2, ID (MergeRequest c2),
           ForceRemoveSourceBranch (MergeParams (MergeRequest c2)))]
    else [].
Proof.
  intros Hq1 Hq2 Hid. cbn zeta.
  rewrite run_cons_state, !run_cons_trace, merge_calls_app.
  set (st1 := (checkLgtm privateToken resp1 (initState u) c1).1).
  assert (lgtmCount st1 !! ID (MergeRequest c2) = Some 1) as H1.
  { unfold st1. by rewrite checkLgtm_lookup, decide_True. }
  split.
  - rewrite run_cons_state. simpl. unfold count_of at 1.
    rewrite checkLgtm_lookup, decide_True by done.
    unfold count_of. by rewrite H1.
  - assert (merge_calls (checkLgtm privateToken resp1 (initState u) c1).2 = [])
      as ->.
    { rewrite merge_calls_checkLgtm, decide_True by done.
      unfold countLgtm, initState. simpl. by rewrite lookup_empty. }
    fold st1. simpl. rewrite app_nil_r.
    rewrite merge_calls_checkLgtm, decide_True by done.
    unfold countLgtm. rewrite H1. simpl.
    fold StatusCanbeMerged.
    destruct (decide (MergeStatus (MergeRequest c2) = StatusCanbeMerged)) as [Hs|Hs].
    + by rewrite bool_decide_eq_true_2.
    + by rewrite bool_decide_eq_false_2.
Qed.

End MoreFacts.

(** ** The path names the merge request *)

(** X8. The path written at line 166 names its merge request: different
    pairs of project and merge request give different paths (what [%d]
    prints holds no slash). On a configured URL without an opaque part and
    with a path in its default encoding they also give different URLs. On
    a configured URL with an opaque part every pair gives the same URL:
    with [localhost:8080] each merge call is sent to [localhost:8080].
    With [https://user:pw@host?x=1] the call for merge request 42 of
    project 7 is sent to
    [https://user:pw@host/api/v3/projects/7/merge_requests/42/merge?x=1]. *)
Theorem mergePath_names_the_merge_request u p m p' m' :
  (mergePath p m = mergePath p' m' → p = p' ∧ m = m')
  ∧ (Opaque u = EmptyString → RawPath u = EmptyString →
     mergeURL u p m = mergeURL u p' m' → p = p' ∧ m = m')
  ∧ (Opaque u ≠ EmptyString → mergeURL u p m = mergeURL u p' m')
  ∧ mergeURL localhostURL p m = "localhost:8080"
  ∧ mergeURL userURL 7 42
    = "https://user:pw@host/api/v3/projects/7/merge_requests/42/merge?x=1".
Proof.
  split_and!.
  - apply mergePath_inj.
  - apply mergeURL_inj.
  - intros Ho. by rewrite !mergeURL_opaque.
  - by rewrite mergeURL_opaque.
  - by vm_compute.
Qed.

(** ** Start-up and concurrent merge calls *)

(** X9. [main] gets as far as the server exactly when both flags are given
    and the URL parses; then it prints [start http server] and never
    returns, also when listening fails, which nothing reports. The token
    is looked at first: without it the only output is
    [private token is required], whatever the URL. A URL that does not
    parse panics before anything is printed. *)
Theorem main_startup url_Parse privateToken gitlabURL listenErr :
  let r := main url_Parse privateToken gitlabURL listenErr in
  (privateToken = EmptyString → r = Exits ["private token is required"])
  ∧ (privateToken ≠ EmptyString → gitlabURL = EmptyString →
     r = Exits ["gitlab url is required"])
  ∧ ((∃ u serving, r = Blocks ["start http server"] u serving) ↔
     privateToken ≠ EmptyString ∧ gitlabURL ≠ EmptyString
     ∧ ∃ u, url_Parse gitlabURL = inr u)
  ∧ (∀ u, r = Blocks ["start http server"] u true ↔
     privateToken ≠ EmptyString ∧ gitlabURL ≠ EmptyString
     ∧ url_Parse gitlabURL = inr u ∧ listenErr = None)
  ∧ (∀ out msg, r = Panics out msg ↔
     privateToken ≠ EmptyString ∧ gitlabURL ≠ EmptyString
     ∧ url_Parse gitlabURL = inl msg ∧ out = []).
Proof.
  simpl. unfold main, parseURL.
  destruct (decide (privateToken = EmptyString)) as [Ht|Ht].
  { split_and!; try done.
    - split; [by intros (? & ? & ?)|by intros (? & _)].
    - intros u. split; [done|by intros (? & _)].
    - intros out msg. split; [done|by intros (? & _)]. }
  destruct (decide (gitlabURL = EmptyString)) as [Hu|Hu].
  { split_and!; try done.
    - split; [by intros (? & ? & ?)|by intros (_ & ? & _)].
    - intros u. split; [done|by intros (_ & ? & _)].
    - intros out msg. split; [done|by intros (_ & ? & _)]. }
  destruct (url_Parse gitlabURL) as [err|u0] eqn:Hp.
  - split_and!; try done.
    + split; [by intros (? & ? & ?)|by intros (_ & _ & ? & ?)].
    + intros u. split; [done|by intros (_ & _ & ? & _)].
    + intros out msg. split.
      * by intros [= <- <-].
      * by intros (_ & _ & [= <-] & ->).
  - split_and!; try done.
    + split; [intros _; split_and!; try done; by exists u0|].
      intros _. by eexists _, _.
    + intros u. split.
      * intros [= <- Hl]. split_and!; try done. by destruct listenErr.
      * by intros (_ & _ & [= <-] & ->).
    + intros out msg. split; [done|by intros (_ & _ & ? & _)].
Qed.

(** A call that runs alone is [acceptMergeRequest]: the same request, the
    same shared URL. *)
Lemma solo_call_is_acceptMergeRequest tok resp st p m b :
  MergeRace.exec tok [0; 0; 0]%nat (MergeRace.calls (glURL st) [(p, m)])
  = Some ({| MergeRace.sharedURL := glURL (acceptMergeRequest tok resp st p m b).1;
             MergeRace.wire := sent (acceptMergeRequest tok resp st p m b).2 |},
          [{| MergeRace.callProject := p; MergeRace.callMergeRequest := m;
              MergeRace.callAt := MergeRace.Returned |}]).
Proof. simpl. by rewrite sent_outcome_log. Qed.

(** C6. Two merge calls that interleave: the call for merge request 42 of
    project 7 and the call for merge request 43 of project 8, on
    [https://your.gitlab.com]. The second call writes its path (line 166)
    after the first has written its own and before the first reads
    [glURL] (line 167). Both requests go to merge request 43 of project 8;
    none goes to merge request 42 of project 7. *)
Theorem racing_merge_calls_hit_one_merge_request :
  ∃ cfg, MergeRace.exec token [0; 1; 0; 1; 0; 1]%nat
           (MergeRace.calls exampleURL [(7, 42); (8, 43)]) = Some cfg
         ∧ MergeRace.callAt <$> cfg.2 = [MergeRace.Returned; MergeRace.Returned]
         ∧ ReqURL <$> MergeRace.wire cfg.1
           = ["https://your.gitlab.com/api/v3/projects/8/merge_requests/43/merge";
              "https://your.gitlab.com/api/v3/projects/8/merge_requests/43/merge"]
         ∧ mergeURL exampleURL 7 42
           = "https://your.gitlab.com/api/v3/projects/7/merge_requests/42/merge".
Proof. eexists. by vm_compute. Qed.

(** X10. Two merge calls share [glURL] without the mutex. Run one after the
    other, each sends its request to the URL of its own merge request. If
    the second writes its path between the first's write (line 166) and
    the first's read (line 167), both requests go to the URL of the
    second's merge request; and when the configured URL has no opaque part
    and its path is in the default encoding, none goes to the URL of the
    first's. *)
Theorem concurrent_calls_share_the_path tok u p1 m1 p2 m2 :
  (∃ cfg, MergeRace.exec tok [0; 0; 0; 1; 1; 1]%nat
            (MergeRace.calls u [(p1, m1); (p2, m2)]) = Some cfg
          ∧ ReqURL <$> MergeRace.wire cfg.1 = [mergeURL u p1 m1; mergeURL u p2 m2])
  ∧ (∃ cfg, MergeRace.exec tok [0; 1; 0; 1; 0; 1]%nat
              (MergeRace.calls u [(p1, m1); (p2, m2)]) = Some cfg
            ∧ ReqURL <$> MergeRace.wire cfg.1 = [mergeURL u p2 m2; mergeURL u p2 m2]
            ∧ (Opaque u = EmptyString → RawPath u = EmptyString →
               (p1, m1) ≠ (p2, m2) →
               mergeURL u p1 m1 ∉ ReqURL <$> MergeRace.wire cfg.1)).
Proof.
  split; [by eexists|].
  eexists. split; [done|]. split; [done|].
  intros Ho Hr Hne Hin. simpl in Hin.
  assert (mergeURL u p1 m1 = mergeURL u p2 m2) as Heq.
  { apply elem_of_cons in Hin as [?|Hin]; [done|].
    apply elem_of_cons in Hin as [?|Hin]; [done|].
    by apply elem_of_nil in Hin. }
  apply mergeURL_inj in Heq as [-> ->]; done.
Qed.

(** ** More about the interleavings *)

Lemma approvals_qualified_for k (evs : list (DoResult * Comment)) :
  approvals k (snd <$> evs) = qualified_for k evs.
Proof.
  unfold approvals, qualified_for.
  induction evs as [|[resp c] rest IH]; [done|].
  rewrite fmap_cons, !filter_cons. simpl.
  destruct (decide _); simpl; by rewrite IH.
Qed.

Lemma tally_holding_finished gs :
  Forall (λ g, pc g = Finished) gs → tally holding gs = 0%nat.
Proof.
  induction 1 as [|g gs Hg _ IH]; [done|].
  simpl. unfold holding at 1. by rewrite Hg, IH.
Qed.

(** X11. Handling the events concurrently gives the map that handling them
    one after the other gives: whatever the schedule, once all goroutines
    have returned the counter map equals the one [run] computes from the
    same events, and the mutex is free. *)
Theorem interleaving_agrees_with_run tok u (evs : list (DoResult * Comment)) sched cfg :
  Z.of_nat (length evs) ≤ MaxInt →
  exec sched (spawn (snd <$> evs)) = Some cfg →
  all_finished cfg →
  counter cfg.1 = lgtmCount (run tok (initState u) evs).1
  ∧ mutexLocked cfg.1 = false.
Proof.
  intros Hlen Hex Hf.
  assert (length (spawn (snd <$> evs)).2 = length evs) as Hl
    by (unfold spawn; simpl; by rewrite !length_fmap).
  destruct (exec_inv sched (spawn (snd <$> evs)) cfg) as [HI Hc];
    [by rewrite Hl|apply Inv_spawn|done|].
  assert (comment <$> cfg.2 = snd <$> evs) as Hevs.
  { rewrite Hc. unfold spawn. simpl. rewrite <-list_fmap_compose.
    apply list_fmap_id. }
  destruct HI as (Hmx & Hcnt & _). split.
  - apply map_eq. intros k.
    rewrite Hcnt, (tally_finished k cfg.2 Hf), Hevs, approvals_qualified_for.
    rewrite run_lookup. unfold initState, count_of. simpl.
    rewrite lookup_empty. simpl.
    destruct (decide _); [done|]. f_equal. symmetry. apply wrap_small.
    pose proof (qualified_for_le k evs). unfold MinInt, intSize. lia.
  - rewrite (tally_holding_finished _ Hf) in Hmx.
    by destruct (mutexLocked cfg.1).
Qed.

(** X12. The read of the map for the log line is not covered by the mutex:
    for any two qualifying events, with any others beside them, the
    schedule that lets the first goroutine run up to its log line and the
    second up to its store reaches a configuration in which the first is
    about to read [lgtmCount] while the second holds the mutex and is
    about to write it. *)
Theorem log_read_meets_store c1 c2 others :
  qualifying c1 → qualifying c2 →
  ∃ cfg b v,
    exec [0; 0; 0; 0; 0; 1; 1; 1]%nat (spawn (c1 :: c2 :: others)) = Some cfg
    ∧ cfg.2 !! 0%nat = Some {| comment := c1; pc := AtLog b |}
    ∧ cfg.2 !! 1%nat = Some {| comment := c2; pc := AtStore v |}
    ∧ mutexLocked cfg.1 = true.
Proof.
  intros H1 H2. unfold spawn. rewrite !fmap_cons.
  unfold exec, sched_step. simpl.
  repeat (first [rewrite lookup_empty | rewrite decide_True by done]; simpl).
  by eexists _, _, _.
Qed.

(** ** The statements at concrete events *)

Lemma lgtm42_qualifying : qualifying lgtm42.
Proof. by vm_compute. Defined.

(** The second approval of merge request 42 calls the merge, once. *)
Lemma merge_trigger_iff_quorum_witness :
  merge_calls (checkLgtm token (DoResponse 200) after_one lgtm42).2
  = [(7, 42, false)].
Proof.
  pose proof (merge_trigger_iff_quorum token (DoResponse 200) after_one lgtm42)
    as (Hiff & Hone & _).
  apply Hone. apply Hiff. split; [exact lgtm42_qualifying|]. by vm_compute.
Defined.

(** The first approval of merge request 42 sets its counter to 1. *)
Lemma checkLgtm_counts_iff_qualifying_witness :
  lgtmCount (checkLgtm token (DoResponse 200) (initState exampleURL) lgtm42).1 !! 42
  = Some 1.
Proof.
  pose proof (checkLgtm_counts_iff_qualifying token (DoResponse 200)
                (initState exampleURL) lgtm42) as (_ & _ & Hq & _).
  simpl in Hq. by rewrite (Hq lgtm42_qualifying).
Defined.

(** Three approvals of merge request 42, and one comment that is none. *)
Lemma counter_update_counts_events_witness :
  count_of (lgtmCount (run token (initState exampleURL)
              [(DoResponse 200, lgtm42);
               (DoResponse 200, mkComment "issue" "LGTM" "MergeRequest" 7 42
                                  "can_be_merged" false);
               (DoResponse 406, lgtm42);
               (DoResponse 500, lgtm42)]).1) 42
  = 3.
Proof.
  pose proof (counter_update_counts_events token) as [_ Hrun].
  destruct (Hrun exampleURL
              [(DoResponse 200, lgtm42);
               (DoResponse 200, mkComment "issue" "LGTM" "MergeRequest" 7 42
                                  "can_be_merged" false);
               (DoResponse 406, lgtm42);
               (DoResponse 500, lgtm42)] 42) as (_ & Hn & _).
  rewrite Hn; by vm_compute.
Defined.

(** C4 as stated fails: three approvals of merge request 42, each with
    [can_be_merged], call [acceptMergeRequest] for it twice. *)
Lemma merge_trigger_fires_twice :
  calls_for 42 (run token (initState exampleURL)
                  [(DoResponse 200, lgtm42); (DoResponse 406, lgtm42);
                   (DoResponse 406, lgtm42)]).2 = 2%nat
  ∧ ¬ (calls_for 42 (run token (initState exampleURL)
                       [(DoResponse 200, lgtm42); (DoResponse 406, lgtm42);
                        (DoResponse 406, lgtm42)]).2 ≤ 1)%nat.
Proof. split; [by vm_compute|]. vm_compute. lia. Qed.

(** An approval that finds the counter of merge request 42 at 1 calls the
    merge. *)
Lemma merge_trigger_once_per_event_witness :
  calls_for 42 (checkLgtm token (DoResponse 406) after_one lgtm42).2 = 1%nat.
Proof.
  pose proof (merge_trigger_once_per_event token) as (_ & _ & Hagain).
  apply (Hagain (DoResponse 406) after_one lgtm42 1 lgtm42_qualifying);
    [done|by vm_compute|by vm_compute].
Defined.

(** One approval handled, a second one coming. *)
Lemma counter_map_monotone_witness :
  Z.of_nat (length [(DoResponse 200, lgtm42)]) < MaxInt
  ∧ count_of (lgtmCount after_one) 42
    ≤ count_of (lgtmCount (checkLgtm token (DoResponse 200) after_one lgtm42).1) 42.
Proof.
  assert (H : Z.of_nat (length [(DoResponse 200, lgtm42)]) < MaxInt)
    by (by vm_compute).
  split; [exact H|].
  pose proof (counter_map_monotone token exampleURL [(DoResponse 200, lgtm42)]
                (DoResponse 200) lgtm42 H) as (_ & Hle & _).
  apply Hle.
Defined.

(** A well-formed delivery is answered 200 OK. *)
Lemma LGTM_response_witness :
  wroteHeader (LGTM token decode_lgtm42 id (DoResponse 200) after_one
                 {| Header := jsonHeader "application/json";
                    Body := Some "lgtm42" |}).1.2 = Some 200
  ∧ written (LGTM token decode_lgtm42 id (DoResponse 200) after_one
               {| Header := jsonHeader "application/json";
                  Body := Some "lgtm42" |}).1.2 = "OK".
Proof.
  pose proof (LGTM_response token decode_lgtm42 id (DoResponse 200) after_one
                {| Header := jsonHeader "application/json";
                   Body := Some "lgtm42" |}) as (Hok & _).
  destruct (Hok eq_refl "lgtm42" lgtm42 eq_refl eq_refl) as (H1 & H2 & _).
  by split.
Defined.

(** The same delivery under [application/json; charset=utf-8] is refused. *)
Lemma content_type_compared_exactly_witness :
  wroteHeader (LGTM token decode_lgtm42 id (DoResponse 200) after_one
                 {| Header := jsonHeader "application/json; charset=utf-8";
                    Body := Some "lgtm42" |}).1.2 = Some 400
  ∧ lgtmCount (LGTM token decode_lgtm42 id (DoResponse 200) after_one
                 {| Header := jsonHeader "application/json; charset=utf-8";
                    Body := Some "lgtm42" |}).1.1 = lgtmCount after_one.
Proof.
  pose proof (content_type_compared_exactly token decode_lgtm42 id) as [_ Hcs].
  destruct (Hcs (DoResponse 200) after_one
              (jsonHeader "application/json; charset=utf-8") (Some "lgtm42")
              eq_refl) as (H1 & H2 & _).
  by split.
Defined.

(** ** The further statements at concrete events *)

(** Three deliveries of the approval of merge request 42: two merge calls. *)
Lemma repeated_delivery_reaches_quorum_witness :
  merge_calls (run token (initState exampleURL)
                 (replicate 3 (DoResponse 200, lgtm42))).2
  = [(7, 42, false); (7, 42, false)].
Proof.
  assert (Z.of_nat 3 ≤ MaxInt) as Hn by (by vm_compute).
  destruct (repeated_delivery_reaches_quorum token exampleURL (DoResponse 200)
              lgtm42 3 lgtm42_qualifying eq_refl Hn) as [Hc _].
  exact Hc.
Defined.

Lemma lgtm42_elsewhere_qualifying : qualifying lgtm42_elsewhere.
Proof. by vm_compute. Defined.

(** An approval from project 8 reported as not mergeable, then one from
    project 7: the merge is called for project 7. *)
Lemma quorum_ignores_project_and_earlier_status_witness :
  merge_calls (run token (initState exampleURL)
                 [(DoResponse 200, lgtm42_elsewhere); (DoResponse 200, lgtm42)]).2
  = [(7, 42, false)].
Proof.
  destruct (quorum_ignores_project_and_earlier_status token exampleURL
              (DoResponse 200) (DoResponse 200) lgtm42_elsewhere lgtm42
              lgtm42_elsewhere_qualifying lgtm42_qualifying eq_refl) as [_ Hc].
  exact Hc.
Defined.

(** The three goroutines of [interleaved] end with the map of [run]. *)
Lemma interleaving_agrees_with_run_witness :
  ∃ cfg, exec interleaved (spawn (snd <$> three_deliveries)) = Some cfg
         ∧ counter cfg.1
           = lgtmCount (run token (initState exampleURL) three_deliveries).1.
Proof.
  destruct (exec interleaved (spawn (snd <$> three_deliveries))) as [cfg|] eqn:He;
    [|by vm_compute in He].
  exists cfg. split; [done|].
  assert (all_finished cfg) as Hf.
  { vm_compute in He. injection He as <-. by repeat constructor. }
  assert (Z.of_nat (length three_deliveries) ≤ MaxInt) as Hlen by (by vm_compute).
  destruct (interleaving_agrees_with_run token exampleURL three_deliveries
              interleaved cfg Hlen He Hf) as [Hm _].
  exact Hm.
Defined.

(** Two approvals of merge request 42: one goroutine at its log line, the
    other before its store. *)
Lemma log_read_meets_store_witness :
  ∃ cfg b v,
    exec [0; 0; 0; 0; 0; 1; 1; 1]%nat (spawn [lgtm42; lgtm42]) = Some cfg
    ∧ cfg.2 !! 0%nat = Some {| comment := lgtm42; pc := AtLog b |}
    ∧ cfg.2 !! 1%nat = Some {| comment := lgtm42; pc := AtStore v |}
    ∧ mutexLocked cfg.1 = true.
Proof.
  exact (log_read_meets_store lgtm42 lgtm42 [] lgtm42_qualifying lgtm42_qualifying).
Defined.
